(** * Image-compression proxy: request pipeline, fallback decision and worker loop

    A shallow embedding of the three source files of the proxy:

    - [parse-request-parameters]: the Parameter Extractor middleware,
    - [handle-image-proxy-request]: the fetch / compress / decide handler,
    - the worker entry point: admission queue wiring, idle timer.

    JavaScript objects that the code mutates are explicit state: the Express
    application object (whose [locals] the code assigns and reads through
    [request.app.locals]) and the per-request response object.  The async
    handler is a resumable task: it suspends at its two [await] points and is
    resumed with the outcome of the awaited call and with the state of the
    application object as it is at that moment. *)

From Stdlib Require Import ZArith String Ascii List Lia.
From stdpp Require Import base gmap strings list option pretty.

Open Scope Z_scope.

(** ** JavaScript values and built-ins used by the code *)

Module JS.

(** A JS number that holds an integer, or NaN. *)
Definition number : Type := option Z.

(** Truthiness of a string: only the empty string is falsy. *)
Definition truthy (s : string) : bool :=
  match s with
  | EmptyString => false
  | String _ _ => true
  end.

(** Truthiness of a property that may be undefined. *)
Definition truthy_prop (o : option string) : bool :=
  match o with
  | Some s => truthy s
  | None => false
  end.

(** [o || d] for a string property that may be undefined. *)
Definition or_default (o : option string) (d : string) : string :=
  match o with
  | Some s => if truthy s then s else d
  | None => d
  end.

(** [o === s] for a property that may be undefined. *)
Definition strict_eq (o : option string) (s : string) : bool :=
  bool_decide (o = Some s).

(** [Number.prototype.toString] on an integer. *)
Definition toString (n : Z) : string := pretty n.

(** [String.prototype.indexOf] for a one-character needle: -1 when absent. *)
Fixpoint indexOf_from (c : ascii) (s : string) (i : Z) : Z :=
  match s with
  | EmptyString => -1
  | String d s' => if bool_decide (c = d) then i else indexOf_from c s' (i + 1)
  end.

Definition indexOf (c : ascii) (s : string) : Z := indexOf_from c s 0.

(** [String.prototype.slice] with one argument: a negative start counts
    from the end of the string. *)
Definition slice (start : Z) (s : string) : string :=
  let len := Z.of_nat (String.length s) in
  let from := if start <? 0 then Z.max (len + start) 0 else Z.min start len in
  substring (Z.to_nat from) (Z.to_nat (len - from)) s.

Definition is_upper (c : ascii) : bool :=
  let n := nat_of_ascii c in (65 <=? n)%nat && (n <=? 90)%nat.

Definition is_digit (c : ascii) : bool :=
  let n := nat_of_ascii c in (48 <=? n)%nat && (n <=? 57)%nat.

Definition lower_ascii (c : ascii) : ascii :=
  if is_upper c then ascii_of_nat (nat_of_ascii c + 32) else c.

(** [String.prototype.toLowerCase] on ASCII text. *)
Fixpoint toLowerCase (s : string) : string :=
  match s with
  | EmptyString => EmptyString
  | String c s' => String (lower_ascii c) (toLowerCase s')
  end.

End JS.

(** ** The regular expression of the legacy-prefix rewrite

    [/http:\/\/1\.1\.\d\.\d\/bmi\/(https?:\/\/)?/i], replaced once (no [g]
    flag) by ['http://']. *)

Module LegacyPrefix.

(** Consume the literal [p] at the head of [s], ignoring case. *)
Fixpoint literal (p s : string) : option string :=
  match p, s with
  | EmptyString, _ => Some s
  | String a p', String b s' =>
      if bool_decide (JS.lower_ascii a = JS.lower_ascii b) then literal p' s' else None
  | String _ _, EmptyString => None
  end.

(** Consume one [\d]. *)
Definition digit (s : string) : option string :=
  match s with
  | String c s' => if JS.is_digit c then Some s' else None
  | EmptyString => None
  end.

(** The optional, greedy group [(https?:\/\/)?]. *)
Definition scheme (s : string) : string :=
  match literal "https://" s with
  | Some r => r
  | None =>
      match literal "http://" s with
      | Some r => r
      | None => s
      end
  end.

(** A match anchored at the head of [s]; the result is what follows it. *)
Definition match_here (s : string) : option string :=
  s1 ← literal "http://1.1." s;
  s2 ← digit s1;
  s3 ← literal "." s2;
  s4 ← digit s3;
  s5 ← literal "/bmi/" s4;
  Some (scheme s5).

(** [s.replace(re, 'http://')]: the leftmost match only. *)
Fixpoint replace (s : string) : string :=
  match match_here s with
  | Some rest => "http://" +:+ rest
  | None =>
      match s with
      | EmptyString => EmptyString
      | String c s' => String c (replace s')
      end
  end.

End LegacyPrefix.

(** ** Errors and completions

    A synchronous call either returns or throws; state changes made before a
    throw stay. *)

Inductive Error : Type :=
  | TransportError (message : string)   (* thrown by the HTTP client *)
  | CodecError (message : string)       (* thrown by the image codec *)
  | HeadersAlreadySent.                 (* ERR_HTTP_HEADERS_SENT *)

Inductive Completion (A : Type) : Type :=
  | Normal (a : A)
  | Throw (e : Error).

Arguments Normal {A} a.
Arguments Throw {A} e.

(** ** The Express response object *)

Inductive Payload : Type :=
  | Text (s : string)
  | Bytes (data : list Byte.byte).

(** What went out on the wire for one response. *)
Inductive Emission : Type :=
  | Sent (headers : gmap string string) (body : Payload)
  | Redirected (location : string).

Record Response : Type := mkResponse {
  headers : gmap string string;   (* header store, keyed by lower-cased name *)
  headersSent : bool;
  emitted : list Emission;
  closeListeners : nat            (* listeners registered with on('close') *)
}.

Module Res.

(** [setHeader]: names are case-insensitive; refused once headers are out. *)
Definition setHeader (name value : string) (r : Response) : Completion Response :=
  if headersSent r then Throw HeadersAlreadySent
  else Normal (mkResponse (<[JS.toLowerCase name := value]> (headers r))
                          (headersSent r) (emitted r) (closeListeners r)).

(** [response.set(obj)]: one [setHeader] per own property, in order. *)
Fixpoint set (fields : list (string * string)) (r : Response) : Completion Response :=
  match fields with
  | [] => Normal r
  | (name, value) :: rest =>
      match setHeader name value r with
      | Normal r' => set rest r'
      | Throw e => Throw e
      end
  end.

Definition removeHeader (name : string) (r : Response) : Completion Response :=
  if headersSent r then Throw HeadersAlreadySent
  else Normal (mkResponse (delete (JS.toLowerCase name) (headers r))
                          (headersSent r) (emitted r) (closeListeners r)).

(** [response.send(body)]: writes the head and the body.  The emission
    records the header store as the caller left it; what Express adds on its
    own while sending (an ETag, a default content type) is not part of it. *)
Definition send (body : Payload) (r : Response) : Completion Response :=
  if headersSent r then Throw HeadersAlreadySent
  else Normal (mkResponse (headers r) true
                          (emitted r ++ [Sent (headers r) body]) (closeListeners r)).

(** [response.redirect(url)]. *)
Definition redirect (location : string) (r : Response) : Completion Response :=
  if headersSent r then Throw HeadersAlreadySent
  else Normal (mkResponse (headers r) true
                          (emitted r ++ [Redirected location]) (closeListeners r)).

(** [response.on('close', listener)]. *)
Definition on_close (r : Response) : Response :=
  mkResponse (headers r) (headersSent r) (emitted r) (S (closeListeners r)).

End Res.

(** ** The request context and the application object *)

Inductive Format : Type := jpeg | webp.

#[global] Instance Format_eq_dec : EqDecision Format.
Proof. solve_decision. Defined.

(** The object literal assigned to [request.app.locals]. *)
Record Locals : Type := mkLocals {
  url : string;
  format : Format;
  grayscale : bool;
  quality : JS.number
}.

#[global] Instance Locals_eq_dec : EqDecision Locals.
Proof. solve_decision. Defined.

Inductive LogEntry : Type :=
  | LogNoReduction (params : Locals) (originalSize compressedSize : Z)
  | LogError (params : Locals) (reason : Error).

(** The Express application of one worker together with the worker's
    module-level state.  [request.app] is this one object for every request
    the worker serves. *)
Record App : Type := mkApp {
  locals : Locals;
  lastRequestTimestamp : Z;
  log : list LogEntry;
  gcCalls : nat
}.

Definition set_locals (l : Locals) (a : App) : App :=
  mkApp l (lastRequestTimestamp a) (log a) (gcCalls a).

Definition set_format (f : Format) (a : App) : App :=
  set_locals (mkLocals (url (locals a)) f (grayscale (locals a)) (quality (locals a))) a.

Definition logger (e : LogEntry) (a : App) : App :=
  mkApp (locals a) (lastRequestTimestamp a) (log a ++ [e]) (gcCalls a).

(** [if (globalThis.gc) globalThis.gc()]. *)
Definition gc_hint (exposed : bool) (a : App) : App :=
  if exposed then mkApp (locals a) (lastRequestTimestamp a) (log a) (S (gcCalls a)) else a.

Record Request : Type := mkRequest {
  request_url : string;                        (* path and query *)
  request_headers : list (string * string)
}.

(** ** Platform functions the code calls but does not define *)

Record Platform : Type := mkPlatform {
  (** [new URLSearchParams(s).entries()]. *)
  URLSearchParams : string → list (string * string);
  (** [parseInt(s, radix)]; the radix [None] is the omitted argument, the
      result [None] is NaN. *)
  parseInt : string → option Z → JS.number;
  (** [omitEquals(headers, names)] of the repository's [omit-equals] module. *)
  omitEquals : list (string * string) → list string → list (string * string)
}.


(** [process.env] and the runtime switches the code looks at. *)
Record Process : Type := mkProcess {
  USE_BEST_COMPRESSION_FORMAT : option string;
  ENABLE_ALTERNATIVE_FORMAT : option string;
  QUEUE_SIZE_PER_CLUSTER : option string;
  EXTERNAL_REQUEST_TIMEOUT : option string;
  EXTERNAL_REQUEST_RETRIES : option string;
  EXTERNAL_REQUEST_REDIRECTS : option string;
  gc_exposed : bool                            (* [globalThis.gc] is defined *)
}.

(** [process.env.X ? parseInt(process.env.X, 10) : d]. *)
Definition env_int (pf : Platform) (v : option string) (d : Z) : JS.number :=
  match v with
  | Some s => if JS.truthy s then parseInt pf s (Some 10) else Some d
  | None => Some d
  end.

(** ** The Parameter Extractor ([parseRequestParameters]) *)

Definition allowedQueryParameters : list string := ["url"; "jpg"; "bw"; "l"].

(** How a middleware leaves: it called [next()], it returned without calling
    it, or it threw. *)
Inductive Middleware : Type :=
  | Next (app : App) (response : Response)
  | Stop (app : App) (response : Response)
  | Raised (e : Error) (app : App) (response : Response).

(** One turn of the [for ... of requestQueryParams.entries()] loop. *)
Definition collect (acc : gmap string string * string) (entry : string * string)
  : gmap string string * string :=
  let '(filteredQueryParams, extraQueryParams) := acc in
  let '(key, value) := entry in
  if bool_decide (key ∈ allowedQueryParameters)
  then (<[key := value]> filteredQueryParams, extraQueryParams)
  else (filteredQueryParams,
        extraQueryParams +:+
          (if JS.truthy value then "&" +:+ key +:+ "=" +:+ value else "&" +:+ key)).

Definition query_entries (pf : Platform) (request : Request) : list (string * string) :=
  URLSearchParams pf (JS.slice (JS.indexOf "?" (request_url request)) (request_url request)).

(** The object literal the extractor builds from the filtered parameters. *)
Definition build_locals (pf : Platform) (filteredQueryParams : gmap string string)
    (extraQueryParams : string) (u : string) : Locals :=
  let finalUrl := if JS.truthy extraQueryParams then u +:+ extraQueryParams else u in
  {| url := LegacyPrefix.replace finalUrl;
     format := if JS.strict_eq (filteredQueryParams !! "jpg") "1" then jpeg else webp;
     grayscale := JS.strict_eq (filteredQueryParams !! "bw") "1";
     quality := parseInt pf (JS.or_default (filteredQueryParams !! "l") "80") None |}.

Definition parseRequestParameters (pf : Platform) (request : Request)
    (app : App) (response : Response) : Middleware :=
  let '(filteredQueryParams, extraQueryParams) :=
    fold_left collect (query_entries pf request) (∅, EmptyString) in
  match filteredQueryParams !! "url" with
  | Some u =>
      if JS.truthy u
      then Next (set_locals (build_locals pf filteredQueryParams extraQueryParams u) app)
                response
      else match Res.send (Text "bandwidth-hero-proxy") response with
           | Normal response' => Stop app response'
           | Throw e => Raised e app response
           end
  | None =>
      match Res.send (Text "bandwidth-hero-proxy") response with
      | Normal response' => Stop app response'
      | Throw e => Raised e app response
      end
  end.

(** ** The handler ([handleImageProxyRequest]) *)

Record FetchRequest : Type := mkFetchRequest {
  fetch_url : string;
  fetch_headers : gmap string string;
  fetch_timeout : JS.number;
  fetch_retries : JS.number;
  fetch_redirects : JS.number
}.

(** What [await superagent.get(url)...] yields: upstream headers and the
    buffered body, or a thrown error. *)
Inductive FetchOutcome : Type :=
  | FetchOk (upstream_headers : list (string * string)) (body : list Byte.byte)
  | FetchThrow (e : Error).

(** [compressedImageResult]: [format], [image.data], [image.info.size] and
    the optional [sizes]. *)
Record CompressedImage : Type := mkCompressedImage {
  result_format : string;
  image_data : list Byte.byte;
  image_info_size : Z;
  sizes : option (list (string * Z))
}.

Inductive CompressOutcome : Type :=
  | CompressOk (result : CompressedImage)
  | CompressThrow (e : Error).

(** The two codec entry points of the repository. *)
Inductive Codec : Type := compressImage | compressImageToBestFormat.

(** An [async] call in flight.  At an [await] the task holds the state it
    left behind and the continuation; the continuation takes the awaited
    outcome, the application object as it is when the task is resumed, and
    the request's own response object. *)
Inductive Task : Type :=
  | Fulfilled (app : App) (response : Response)
  | Rejected (e : Error) (app : App) (response : Response)
  | OutOfFuel (app : App) (response : Response)
  | AwaitFetch (app : App) (response : Response) (rq : FetchRequest)
      (k : FetchOutcome → App → Response → Task)
  | AwaitCompress (app : App) (response : Response) (codec : Codec)
      (body : list Byte.byte) (params : Locals)
      (k : CompressOutcome → App → Response → Task).

Definition flip (f : Format) : Format :=
  match f with
  | webp => jpeg
  | jpeg => webp
  end.

Section Handler.

Context (pf : Platform) (env : Process).

(** The [catch (error)] block. *)
Definition catch_block (url : string) (error : Error) (app : App) (appResponse : Response)
  : Task :=
  match (if headersSent appResponse then Normal appResponse
         else Res.redirect url appResponse) with
  | Normal appResponse' =>
      Fulfilled (gc_hint (gc_exposed env) (logger (LogError (locals app) error) app))
                appResponse'
  | Throw e => Rejected e app appResponse
  end.

Definition filteredRequestHeaders (appRequest : Request) : gmap string string :=
  <["connection" := "close"]>
    (<["pragma" := "no-cache"]>
      (<["cache-control" := "no-cache"]>
        (<["accept" := "*/*"]>
          (<["accept-encoding" := "*"]>
            (list_to_map (omitEquals pf (request_headers appRequest) ["host"])))))).

(** The part of the [try] block from the size comparison on. *)
Definition decide_response (retry : App → Response → Task) (url : string)
    (tryAlternativeFormat : bool) (body : list Byte.byte)
    (compressedImageResult : CompressedImage) (app : App) (appResponse : Response) : Task :=
  let compressedImageSize := image_info_size compressedImageResult in
  let originalImageSize := Z.of_nat (length body) in
  let savedImageSize := originalImageSize - compressedImageSize in
  match Res.removeHeader "transfer-encoding" appResponse with
  | Throw e => catch_block url e app appResponse
  | Normal appResponse =>
      if savedImageSize >? 0 then
        match Res.set [("content-encoding", "identity");
                       ("content-type", "image/" +:+ result_format compressedImageResult);
                       ("content-length", JS.toString compressedImageSize);
                       ("x-original-size", JS.toString originalImageSize);
                       ("x-bytes-saved", JS.toString savedImageSize)] appResponse with
        | Throw e => catch_block url e app appResponse
        | Normal appResponse =>
            match Res.send (Bytes (image_data compressedImageResult)) appResponse with
            | Throw e => catch_block url e app appResponse
            | Normal appResponse => Fulfilled app (Res.on_close appResponse)
            end
        end
      else if negb tryAlternativeFormat
              && JS.strict_eq (ENABLE_ALTERNATIVE_FORMAT env) "true" then
        retry (logger (LogNoReduction (locals app) originalImageSize compressedImageSize) app)
              appResponse
      else
        match Res.redirect url appResponse with
        | Throw e => catch_block url e app appResponse
        | Normal appResponse => Fulfilled app (Res.on_close appResponse)
        end
  end.

(** The handler.  [fuel] bounds the depth of the self-call; the source has
    no such bound written down, it recurses on [tryAlternativeFormat]. *)
Fixpoint handleImageProxyRequest (fuel : nat) (appRequest : Request)
    (tryAlternativeFormat : bool) (app : App) (appResponse : Response) : Task :=
  match fuel with
  | O => OutOfFuel app appResponse
  | S fuel' =>
      let app :=
        set_format (if tryAlternativeFormat then flip (format (locals app))
                    else format (locals app)) app in
      let url := url (locals app) in
      AwaitFetch app appResponse
        {| fetch_url := url;
           fetch_headers := filteredRequestHeaders appRequest;
           fetch_timeout := env_int pf (EXTERNAL_REQUEST_TIMEOUT env) 60000;
           fetch_retries := env_int pf (EXTERNAL_REQUEST_RETRIES env) 5;
           fetch_redirects := env_int pf (EXTERNAL_REQUEST_REDIRECTS env) 10 |}
        (fun externalImageResponse app appResponse =>
           match externalImageResponse with
           | FetchThrow e => catch_block url e app appResponse
           | FetchOk upstream_headers body =>
               match Res.set upstream_headers appResponse with
               | Throw e => catch_block url e app appResponse
               | Normal appResponse =>
                   AwaitCompress app appResponse
                     (if JS.strict_eq (USE_BEST_COMPRESSION_FORMAT env) "true"
                      then compressImageToBestFormat else compressImage)
                     body (locals app)
                     (fun compressed app appResponse =>
                        match compressed with
                        | CompressThrow e => catch_block url e app appResponse
                        | CompressOk compressedImageResult =>
                            decide_response
                              (handleImageProxyRequest fuel' appRequest true)
                              url tryAlternativeFormat body compressedImageResult
                              app appResponse
                        end)
               end
           end)
  end.

End Handler.

(** ** Running one request to completion

    The outside world answers the awaited calls.  Calls are numbered, so the
    second fetch of a URL may be answered differently from the first. *)

Record World : Type := mkWorld {
  superagent_get : nat → FetchRequest → FetchOutcome;
  codec_call : nat → Codec → list Byte.byte → Locals → CompressOutcome
}.

Inductive Event : Type :=
  | Fetched (rq : FetchRequest)
  | Compressed (codec : Codec) (body : list Byte.byte) (params : Locals).

Definition is_fetch (e : Event) : bool :=
  match e with
  | Fetched _ => true
  | Compressed _ _ _ => false
  end.

Definition is_compress (e : Event) : bool := negb (is_fetch e).

Definition fetches (trace : list Event) : nat := length (filter is_fetch trace).
Definition compressions (trace : list Event) : nat := length (filter is_compress trace).

Inductive Status : Type :=
  | fulfilled
  | rejected (e : Error)
  | out_of_fuel.

Record Result : Type := mkResult {
  status : Status;
  final_app : App;
  final_response : Response;
  trace : list Event
}.

(** Run a task with no other request interleaved: every [await] is resumed
    with the state the task itself left behind. *)
Fixpoint run (w : World) (seen : list Event) (t : Task) : Result :=
  match t with
  | Fulfilled app response => mkResult fulfilled app response seen
  | Rejected e app response => mkResult (rejected e) app response seen
  | OutOfFuel app response => mkResult out_of_fuel app response seen
  | AwaitFetch app response rq k =>
      run w (seen ++ [Fetched rq]) (k (superagent_get w (fetches seen) rq) app response)
  | AwaitCompress app response codec body params k =>
      run w (seen ++ [Compressed codec body params])
          (k (codec_call w (compressions seen) codec body params) app response)
  end.

(** Resume a suspended task on the application object as it is now. *)
Definition resume_fetch (t : Task) (outcome : FetchOutcome) (app_now : App) : option Task :=
  match t with
  | AwaitFetch _ response _ k => Some (k outcome app_now response)
  | _ => None
  end.

(** The application object a task left behind when it suspended or settled. *)
Definition task_app (t : Task) : App :=
  match t with
  | Fulfilled app _ | Rejected _ app _ | OutOfFuel app _
  | AwaitFetch app _ _ _ | AwaitCompress app _ _ _ _ _ => app
  end.

(** ** The worker: route for [GET /], idle timer, admission queue wiring *)

Definition updateLastRequestTimestamp (now : Z) (app : App) : App :=
  mkApp (locals app) now (log app) (gcCalls app).

(** [app.get('/', parseRequestParameters, updateLastRequestTimestamp,
    handleImageProxyRequest)]; [now] is what [Date.now()] returns in the
    second middleware. *)
Definition get_root (pf : Platform) (env : Process) (fuel : nat) (now : Z)
    (request : Request) (app : App) (response : Response) : Task :=
  match parseRequestParameters pf request app response with
  | Next app response =>
      handleImageProxyRequest pf env fuel request false
        (updateLastRequestTimestamp now app) response
  | Stop app response => Fulfilled app response
  | Raised e app response => Rejected e app response
  end.

(** The callback of [setInterval(..., 5000)]; [now] is [Date.now()]. *)
Definition idle_tick (env : Process) (now : Z) (app : App) : App :=
  let timeSinceLastRequest := now - lastRequestTimestamp app in
  if (timeSinceLastRequest <? 10 * 1000) || (timeSinceLastRequest >? 60 * 1000)
  then app
  else gc_hint (gc_exposed env) app.

(** The options object handed to [queue(...)] of express-queue. *)
Record QueueOptions : Type := mkQueueOptions {
  activeLimit : JS.number;
  queuedLimit : Z
}.

(** [const queueSize = process.env.QUEUE_SIZE_PER_CLUSTER ? parseInt(..., 10) : false]:
    [None] is [false]. *)
Definition queueSize (pf : Platform) (env : Process) : option JS.number :=
  match QUEUE_SIZE_PER_CLUSTER env with
  | Some s => if JS.truthy s then Some (parseInt pf s (Some 10)) else None
  | None => None
  end.

(** [if (queueSize !== false) app.use(queue({ activeLimit: queueSize, queuedLimit: -1 }))]:
    the middleware installed in front of the routes, if any. *)
Definition admission_middleware (pf : Platform) (env : Process) : option QueueOptions :=
  match queueSize pf env with
  | Some n => Some {| activeLimit := n; queuedLimit := -1 |}
  | None => None
  end.

(** ** Modelled admission queue *)

Module Admission.

(** Modelled from the spec: the express-queue middleware itself (the package
    is not part of the sources; only its options object is built there).
    It counts the requests being processed and holds the waiting ones in
    arrival order. *)
Record Queue : Type := mkQueue {
  active : nat;
  waiting : list nat          (* request ids, oldest first *)
}.

Inductive Verdict : Type := Proceed | Queued | Refused.

(** Modelled from the spec: the test that a slot is free,
    [active < activeLimit]; a comparison with NaN is false. *)
Definition below_limit (n : nat) (limit : JS.number) : bool :=
  match limit with
  | Some l => Z.of_nat n <? l
  | None => false
  end.

(** Modelled from the spec: a request arrives at the queue.  Below
    [activeLimit] it proceeds; otherwise it waits at the tail while the
    waiting count stays within [queuedLimit] (a negative [queuedLimit] is the
    unbounded sentinel); otherwise it is refused at once. *)
Definition arrive (opts : QueueOptions) (id : nat) (q : Queue) : Queue * Verdict :=
  if below_limit (active q) (activeLimit opts)
  then (mkQueue (S (active q)) (waiting q), Proceed)
  else if (queuedLimit opts <? 0) || (Z.of_nat (length (waiting q)) <? queuedLimit opts)
  then (mkQueue (active q) (waiting q ++ [id]), Queued)
  else (q, Refused).

(** Modelled from the spec: a request in progress ends and frees its slot;
    the oldest waiting request, if any, takes it. *)
Definition release (q : Queue) : Queue * option nat :=
  match waiting q with
  | [] => (mkQueue (pred (active q)) [], None)
  | id :: rest => (mkQueue (active q) rest, Some id)
  end.

(** Free slots one after the other; the ids started, in order. *)
Fixpoint drain (n : nat) (q : Queue) : Queue * list nat :=
  match n with
  | O => (q, [])
  | S n' =>
      match release q with
      | (q', Some id) => let '(q'', ids) := drain n' q' in (q'', id :: ids)
      | (q', None) => drain n' q'
      end
  end.

(** Requests arriving one after the other; the queue they leave. *)
Definition arrive_all (opts : QueueOptions) (ids : list nat) (q : Queue) : Queue :=
  fold_left (fun q id => (arrive opts id q).1) ids q.

(** What the worker does with an arriving request: through the queue when
    the middleware is installed, straight on otherwise. *)
Definition accept (pf : Platform) (env : Process) (id : nat) (q : Queue) : Queue * Verdict :=
  match admission_middleware pf env with
  | Some opts => arrive opts id q
  | None => (q, Proceed)
  end.

End Admission.

(** ** Derived states of the response object *)

(** The header store after [response.set(fields)]. *)
Definition store_fields (fields : list (string * string)) (h : gmap string string)
  : gmap string string :=
  fold_left (fun acc nv => <[JS.toLowerCase (fst nv) := snd nv]> acc) fields h.

Definition with_headers (h : gmap string string) (r : Response) : Response :=
  mkResponse h (headersSent r) (emitted r) (closeListeners r).

(** The response after a successful [send] or [redirect]. *)
Definition emit (e : Emission) (r : Response) : Response :=
  mkResponse (headers r) true (emitted r ++ [e]) (closeListeners r).


(** ** Vocabulary of the statements *)

(** [process.env.ENABLE_ALTERNATIVE_FORMAT === 'true']. *)
Definition alternative_enabled (env : Process) : bool :=
  JS.strict_eq (ENABLE_ALTERNATIVE_FORMAT env) "true".

(** [process.env.USE_BEST_COMPRESSION_FORMAT === 'true']. *)
Definition best_format_mode (env : Process) : bool :=
  JS.strict_eq (USE_BEST_COMPRESSION_FORMAT env) "true".

(** The codec entry point an attempt calls. *)
Definition codec_of (env : Process) : Codec :=
  if best_format_mode env then compressImageToBestFormat else compressImage.

(** The upstream request an attempt issues for [u]. *)
Definition upstream_request (pf : Platform) (env : Process) (appRequest : Request)
    (u : string) : FetchRequest :=
  {| fetch_url := u;
     fetch_headers := filteredRequestHeaders pf appRequest;
     fetch_timeout := env_int pf (EXTERNAL_REQUEST_TIMEOUT env) 60000;
     fetch_retries := env_int pf (EXTERNAL_REQUEST_RETRIES env) 5;
     fetch_redirects := env_int pf (EXTERNAL_REQUEST_REDIRECTS env) 10 |}.

(** The application object as an attempt leaves it before its fetch. *)
Definition entered (tryAlternativeFormat : bool) (app : App) : App :=
  set_format (if tryAlternativeFormat then flip (format (locals app))
              else format (locals app)) app.

(** The response object once the upstream headers are copied onto it and
    [transfer-encoding] is removed. *)
Definition prepared (upstream_headers : list (string * string)) (r : Response) : Response :=
  with_headers (delete "transfer-encoding" (store_fields upstream_headers (headers r))) r.

(** The five headers of the win path. *)
Definition win_fields (body : list Byte.byte) (result : CompressedImage)
  : list (string * string) :=
  [("content-encoding", "identity");
   ("content-type", "image/" +:+ result_format result);
   ("content-length", JS.toString (image_info_size result));
   ("x-original-size", JS.toString (Z.of_nat (length body)));
   ("x-bytes-saved", JS.toString (Z.of_nat (length body) - image_info_size result))].

(** The task has settled by sending the bytes of [result] as the body. *)
Definition serves (result : CompressedImage) (t : Task) : Prop :=
  match t with
  | Fulfilled _ response =>
      ∃ h, last (emitted response) = Some (Sent h (Bytes (image_data result)))
  | _ => False
  end.

(** The response object after the win path has set its headers on [r] and
    sent the compressed bytes. *)
Definition served (body : list Byte.byte) (result : CompressedImage) (r : Response)
  : Response :=
  let h := store_fields (win_fields body result) (headers r) in
  emit (Sent h (Bytes (image_data result))) (with_headers h r).

(** The context handed to the codec by a task suspended at its compression. *)
Definition awaited_params (t : Task) : option Locals :=
  match t with
  | AwaitCompress _ _ _ _ params _ => Some params
  | _ => None
  end.

(** ** Sample platform, process and inputs

    Stand-ins for the platform functions, good enough for query strings
    without escapes and for decimal numerals; used to evaluate the
    definitions above on concrete requests. *)

Module Sample.

(** Split at the first [c]. *)
Fixpoint split_at (c : ascii) (s : string) : string * option string :=
  match s with
  | EmptyString => (EmptyString, None)
  | String d s' =>
      if bool_decide (c = d) then (EmptyString, Some s')
      else let '(a, b) := split_at c s' in (String d a, b)
  end.

(** Split at every [c]. *)
Fixpoint pieces (c : ascii) (cur : string) (s : string) : list string :=
  match s with
  | EmptyString => [cur]
  | String d s' =>
      if bool_decide (c = d) then cur :: pieces c EmptyString s'
      else pieces c (cur +:+ String d EmptyString) s'
  end.

Definition entry_of (piece : string) : string * string :=
  let '(k, v) := split_at "=" piece in (k, default EmptyString v).

Definition search_params (s : string) : list (string * string) :=
  let s := match s with String "?" s' => s' | _ => s end in
  map entry_of (filter (fun p => JS.truthy p = true) (pieces "&" EmptyString s)).

Fixpoint digits (s : string) (acc : option Z) : option Z :=
  match s with
  | String c s' =>
      if JS.is_digit c
      then digits s' (Some (10 * default 0 acc + (Z.of_nat (nat_of_ascii c) - 48)))
      else acc
  | EmptyString => acc
  end.

Definition platform : Platform :=
  {| URLSearchParams := search_params;
     parseInt := fun s _ => digits s None;
     omitEquals := fun hs names => filter (fun nv => fst nv ∉ names) hs |}.

(** A process with the given two feature flags, everything else unset. *)
Definition process (best alternative : option string) : Process :=
  {| USE_BEST_COMPRESSION_FORMAT := best;
     ENABLE_ALTERNATIVE_FORMAT := alternative;
     QUEUE_SIZE_PER_CLUSTER := None;
     EXTERNAL_REQUEST_TIMEOUT := None;
     EXTERNAL_REQUEST_RETRIES := None;
     EXTERNAL_REQUEST_REDIRECTS := None;
     gc_exposed := true |}.

Definition fresh_response : Response := mkResponse ∅ false [] 0.

Definition idle_app : App :=
  mkApp (mkLocals EmptyString webp false None) 0 [] 0.

Definition bytes (n : nat) : list Byte.byte := replicate n Byte.x00.

Definition photo_request : Request :=
  mkRequest "/?url=http://img.example/a.png&l=40"
            [("host", "proxy.example"); ("user-agent", "ua")].

Definition photo_locals : Locals :=
  mkLocals "http://img.example/a.png" webp false (Some 40).

(** A codec result of [n] bytes in format [f]. *)
Definition image (f : string) (n : nat) : CompressedImage :=
  mkCompressedImage f (bytes n) (Z.of_nat n) None.

(** A world that answers the n-th fetch with [fetch n] and the n-th codec
    call with [codec n]. *)
Definition world (fetch : nat → FetchOutcome) (codec : nat → CompressOutcome) : World :=
  {| superagent_get := fun n _ => fetch n;
     codec_call := fun n _ _ _ => codec n |}.

Definition upstream_png (n : nat) : FetchOutcome :=
  FetchOk [("content-type", "image/png"); ("transfer-encoding", "chunked")] (bytes n).

(** An original of 1000 bytes that the codec brings down to 600. *)
Definition winning_world : World :=
  world (fun _ => upstream_png 1000) (fun _ => CompressOk (image "webp" 600)).

(** The codec never gets below the 1000 bytes of the original. *)
Definition tie_world : World :=
  world (fun _ => upstream_png 1000) (fun _ => CompressOk (image "webp" 1000)).

(** The upstream answers the first fetch with 1000 bytes and the second with
    2000; the codec always produces 1000. *)
Definition changing_world : World :=
  world (fun n => upstream_png (1000 * S n)) (fun _ => CompressOk (image "jpeg" 1000)).

(** The upstream cannot be reached. *)
Definition unreachable_world : World :=
  world (fun _ => FetchThrow (TransportError "Timeout of 60000ms exceeded"))
        (fun _ => CompressOk (image "webp" 600)).

(** The application object once the extractor has stored [photo_locals]. *)
Definition photo_app : App := set_locals photo_locals idle_app.

(** Two requests of one worker: a JPEG at quality 40, a grayscale WebP. *)
Definition jpeg_request : Request :=
  mkRequest "/?url=http://img.example/a.png&jpg=1&l=40" [("host", "proxy.example")].

Definition gray_request : Request :=
  mkRequest "/?url=http://img.example/b.png&bw=1" [("host", "proxy.example")].

Definition jpeg_locals : Locals := mkLocals "http://img.example/a.png" jpeg false (Some 40).
Definition gray_locals : Locals := mkLocals "http://img.example/b.png" webp true (Some 80).

End Sample.

(** What a call put on the wire: nothing when the headers of [r] were out
    already, exactly one response otherwise. *)
Definition answered (r r' : Response) : Prop :=
  if headersSent r then emitted r' = emitted r
  else ∃ x, emitted r' = emitted r ++ [x].

From Stdlib Require QArith Qround.

(** ** Vocabulary for the query parameters *)

(** The value of the last entry with key [k]. *)
Fixpoint last_value (k : string) (entries : list (string * string)) : option string :=
  match entries with
  | [] => None
  | (k', v) :: rest =>
      match last_value k rest with
      | Some v' => Some v'
      | None => if bool_decide (k' = k) then Some v else None
      end
  end.

(** How one unrecognised entry is appended to the target URL. *)
Definition forwarded_entry (entry : string * string) : string :=
  if JS.truthy entry.2 then "&" +:+ entry.1 +:+ "=" +:+ entry.2 else "&" +:+ entry.1.

(** The unrecognised entries, rendered, in the order of the query. *)
Fixpoint forwarded (entries : list (string * string)) : string :=
  match entries with
  | [] => EmptyString
  | entry :: rest =>
      if bool_decide (entry.1 ∈ allowedQueryParameters) then forwarded rest
      else forwarded_entry entry +:+ forwarded rest
  end.

(** [request.url.slice(request.url.indexOf('?'))]. *)
Definition query_of (u : string) : string := JS.slice (JS.indexOf "?" u) u.

(** The context the extractor stores, told from the entries of the query:
    [u] is the value of the last [url] entry. *)
Definition context_of (pf : Platform) (entries : list (string * string)) (u : string)
  : Locals :=
  {| url := LegacyPrefix.replace (u +:+ forwarded entries);
     format := if JS.strict_eq (last_value "jpg" entries) "1" then jpeg else webp;
     grayscale := JS.strict_eq (last_value "bw" entries) "1";
     quality := parseInt pf (JS.or_default (last_value "l" entries) "80") None |}.

(** The plain-text answer of the extractor. *)
Definition identified (r : Response) : Response :=
  emit (Sent (headers r) (Text "bandwidth-hero-proxy")) r.

(** Requests arriving at the worker one after the other; the queue they
    leave. *)
Definition accept_all (pf : Platform) (env : Process) (ids : list nat)
    (q : Admission.Queue) : Admission.Queue :=
  fold_left (fun q id => (Admission.accept pf env id q).1) ids q.

Module Sample2.

(** A worker started with [QUEUE_SIZE_PER_CLUSTER=2]. *)
Definition queue_process : Process :=
  {| USE_BEST_COMPRESSION_FORMAT := None;
     ENABLE_ALTERNATIVE_FORMAT := None;
     QUEUE_SIZE_PER_CLUSTER := Some "2";
     EXTERNAL_REQUEST_TIMEOUT := None;
     EXTERNAL_REQUEST_RETRIES := None;
     EXTERNAL_REQUEST_REDIRECTS := None;
     gc_exposed := false |}.

(** A query with unrecognised entries around the recognised ones, a repeated
    [url], a repeated [jpg] and an empty [l]. *)
Definition busy_request : Request :=
  mkRequest
    "/?x=1&url=http://img.example/a.png&jpg=0&y&jpg=1&url=http://img.example/c.png&l="
    [("host", "proxy.example")].

(** A query whose [url] entry is empty. *)
Definition empty_url_request : Request := mkRequest "/?url=&jpg=1" [].

End Sample2.

(** A legacy-wrapped URL: the host [1.1.d1.d2] (written [host], in any
    letter case), the path [/bmi/] (written [path]) and what it wraps. *)
Definition legacy_wrapped (host : string) (d1 d2 : ascii) (path inner : string) : string :=
  host +:+ String d1 (String "." (String d2 (path +:+ inner))).

(** ** Vocabulary for whole runs *)

(** Every fetch among the events is the request [frq]. *)
Definition fetches_only (frq : FetchRequest) (events : list Event) : Prop :=
  Forall (fun e => match e with
                   | Fetched q => q = frq
                   | Compressed _ _ _ => True
                   end) events.

(** How a run that started from [app] and [r] and noted [noted] in the log
    has ended: either through the end of the [try] block, with the [close]
    listener registered, or through the [catch] block, with the error logged
    and the collector asked at once. *)
Definition completion (env : Process) (app : App) (r : Response) (noted : list LogEntry)
    (R : Result) : Prop :=
  (closeListeners (final_response R) = S (closeListeners r)
   ∧ gcCalls (final_app R) = gcCalls app
   ∧ log (final_app R) = log app ++ noted)
  ∨ (closeListeners (final_response R) = closeListeners r
     ∧ gcCalls (final_app R) = (gcCalls app + if gc_exposed env then 1 else 0)%nat
     ∧ ∃ reason,
         log (final_app R) = log app ++ noted ++ [LogError (locals (final_app R)) reason]).

(** ** Resuming a task at its second [await] *)

Definition resume_compress (t : Task) (outcome : CompressOutcome) (app_now : App)
  : option Task :=
  match t with
  | AwaitCompress _ response _ _ _ k => Some (k outcome app_now response)
  | _ => None
  end.

(** Resume a task from its fetch on [app1], then from its codec call on
    [app2]. *)
Definition resume_both (t : Task) (fetched : FetchOutcome) (app1 : App)
    (compressed : CompressOutcome) (app2 : App) : option Task :=
  resume_fetch t fetched app1 ≫= fun t' => resume_compress t' compressed app2.

(** The upstream request a task is waiting for. *)
Definition awaited_request (t : Task) : option FetchRequest :=
  match t with
  | AwaitFetch _ _ rq _ => Some rq
  | _ => None
  end.

(** The bytes handed to the codec by a task suspended at its compression. *)
Definition awaited_body (t : Task) : option (list Byte.byte) :=
  match t with
  | AwaitCompress _ _ _ body _ _ => Some body
  | _ => None
  end.

(** The response object a settled task has answered on. *)
Definition settled_response (t : Task) : option Response :=
  match t with
  | Fulfilled _ response => Some response
  | _ => None
  end.

(** ** Vocabulary for headers and timer ticks *)

(** The fields of an upstream header object with their names lower-cased,
    as the response object keys them. *)
Definition lowered (fields : list (string * string)) : list (string * string) :=
  map (fun nv => (JS.toLowerCase nv.1, nv.2)) fields.

(** The names the win path sets or removes itself. *)
Definition rewritten_names : list string :=
  ["content-encoding"; "content-type"; "content-length"; "x-original-size";
   "x-bytes-saved"; "transfer-encoding"].

(** The timer callback run at each of the given times, in order, with no
    request in between. *)
Definition idle_ticks (env : Process) (times : list Z) (app : App) : App :=
  fold_left (fun a now => idle_tick env now a) times app.

(** The elapsed time at [now] lies in the range in which the callback asks
    for a collection. *)
Definition in_idle_range (app : App) (now : Z) : bool :=
  (10000 <=? now - lastRequestTimestamp app) && (now - lastRequestTimestamp app <=? 60000).

(** Consecutive times are at least [gap] apart. *)
Fixpoint spaced (gap : Z) (times : list Z) : Prop :=
  match times with
  | [] => True
  | t :: rest =>
      match rest with
      | [] => True
      | t' :: _ => t + gap ≤ t'
      end ∧ spaced gap rest
  end.

(** How many of the given times fall in that range. *)
Definition idle_hits (app : App) (times : list Z) : nat :=
  length (List.filter (in_idle_range app) times).

(** Ticks every 5000 ms from [first] on. *)
Fixpoint every_5000 (first : Z) (n : nat) : list Z :=
  match n with
  | O => []
  | S n' => first :: every_5000 (first + 5000) n'
  end.

(** ** The file-size formatter ([convertFileSize])

    The sizes the handler formats are byte counts: non-negative integers
    below 2^53.  On such a number every division by 1024 is exact in double
    precision, so the exact rationals below are the values the code
    computes. *)

Module FileSize.

Definition units : list string := ["B"; "KB"; "MB"; "GB"; "TB"].

(** The [while (size >= 1024 && index < units.length - 1)] loop; [fuel] is
    the number of turns it is given. *)
Fixpoint loop (fuel : nat) (size : QArith_base.Q) (index : nat) : QArith_base.Q * nat :=
  match fuel with
  | O => (size, index)
  | S fuel' =>
      if QArith_base.Qle_bool (QArith_base.inject_Z 1024) size
         && (index <? length units - 1)%nat
      then loop fuel' (QArith_base.Qdiv size (QArith_base.inject_Z 1024)) (S index)
      else (size, index)
  end.

(** Left-pad with zeros. *)
Definition pad (width : nat) (s : string) : string :=
  String.string_of_list_ascii (replicate (width - String.length s) "0"%char) +:+ s.

(** [Number.prototype.toFixed] on a non-negative number: the nearest
    multiple of [10^-decimalPlaces], the larger one on a tie. *)
Definition toFixed (decimalPlaces : nat) (x : QArith_base.Q) : string :=
  let p := 10 ^ Z.of_nat decimalPlaces in
  let n := Qround.Qfloor
             (QArith_base.Qplus (QArith_base.Qmult x (QArith_base.inject_Z p))
                                (QArith_base.Qmake 1 2)) in
  pretty (n / p) +:+
  (if decimalPlaces is O then EmptyString
   else "." +:+ pad decimalPlaces (pretty (n mod p))).

Definition convertFileSize (size : QArith_base.Q) (decimalPlaces : nat) : string :=
  let '(size', index) := loop (length units) size 0 in
  toFixed decimalPlaces size' +:+ " " +:+ default EmptyString (units !! index).

End FileSize.

(** ** The primary process: pool size and respawn *)

Module Primary.

(** [Math.min] on two numbers: NaN when either is. *)
Definition math_min (a b : JS.number) : JS.number :=
  match a, b with
  | Some x, Some y => Some (Z.min x y)
  | _, _ => None
  end.

(** [Math.min(availableParallelism(), parseInt(process.env.MAX_CLUSTER_SIZE || '4', 10))]. *)
Definition cpuCount (pf : Platform) (MAX_CLUSTER_SIZE : option string)
    (availableParallelism : Z) : JS.number :=
  math_min (Some availableParallelism)
           (parseInt pf (JS.or_default MAX_CLUSTER_SIZE "4") (Some 10)).

(** [process.env.CLUSTER_SIZE ? parseInt(process.env.CLUSTER_SIZE, 10) : cpuCount]. *)
Definition clusterSize (pf : Platform) (MAX_CLUSTER_SIZE CLUSTER_SIZE : option string)
    (availableParallelism : Z) : JS.number :=
  match CLUSTER_SIZE with
  | Some s =>
      if JS.truthy s then parseInt pf s (Some 10)
      else cpuCount pf MAX_CLUSTER_SIZE availableParallelism
  | None => cpuCount pf MAX_CLUSTER_SIZE availableParallelism
  end.

(** The cluster as the primary sees it: the live workers (newest first), the
    number of forks so far (the id the next worker gets), and the warnings
    written. *)
Record Cluster : Type := mkCluster {
  workers : list nat;
  forked : nat;
  warnings : list nat
}.

(** [cluster.fork()]. *)
Definition fork (c : Cluster) : Cluster :=
  mkCluster (forked c :: workers c) (S (forked c)) (warnings c).

(** How often the body of [for (let i = 0; i < clusterSize; i++)] runs:
    never when the bound is NaN or not positive. *)
Definition turns (size : JS.number) : nat :=
  match size with
  | Some n => Z.to_nat n
  | None => 0%nat
  end.

(** The primary's start-up loop. *)
Definition start (size : JS.number) : Cluster :=
  Nat.iter (turns size) fork (mkCluster [] 0 []).

(** The listener of [cluster.on('exit', ...)]: a warning, then a fork. *)
Definition on_exit (worker : nat) (c : Cluster) : Cluster :=
  fork (mkCluster (workers c) (forked c) (warnings c ++ [worker])).

(** A worker dies: it is no longer among the live ones, and the listener
    runs. *)
Definition worker_dies (worker : nat) (c : Cluster) : Cluster :=
  on_exit worker
    (mkCluster (filter (fun x => x ≠ worker) (workers c)) (forked c) (warnings c)).

(** Each of the deaths, in order, is the death of a worker live at that
    time. *)
Fixpoint all_live (deaths : list nat) (c : Cluster) : Prop :=
  match deaths with
  | [] => True
  | d :: rest => d ∈ workers c ∧ all_live rest (worker_dies d c)
  end.

Definition after_deaths (deaths : list nat) (c : Cluster) : Cluster :=
  fold_left (fun c d => worker_dies d c) deaths c.

(** Live workers are distinct and were all forked. *)
Definition sound (c : Cluster) : Prop :=
  NoDup (workers c) ∧ ∀ x, x ∈ workers c → (x < forked c)%nat.

End Primary.

(** ** Vocabulary for answers *)

(** * Properties *)

(** ** The response object *)

Lemma set_unsent fields r :
  headersSent r = false →
  Res.set fields r = Normal (with_headers (store_fields fields (headers r)) r).
Proof.
  revert r. induction fields as [|[n v] fields IH]; intros r Hr.
  - destruct r; reflexivity.
  - simpl. unfold Res.setHeader. rewrite Hr.
    rewrite IH by reflexivity. simpl. unfold with_headers. simpl.
    rewrite Hr. reflexivity.
Qed.

Lemma set_sent n v fields r :
  headersSent r = true → Res.set ((n, v) :: fields) r = Throw HeadersAlreadySent.
Proof. intros Hr. simpl. unfold Res.setHeader. rewrite Hr. reflexivity. Qed.

Lemma removeHeader_unsent name r :
  headersSent r = false →
  Res.removeHeader name r = Normal (with_headers (delete (JS.toLowerCase name) (headers r)) r).
Proof. intros Hr. unfold Res.removeHeader, with_headers. rewrite Hr. reflexivity. Qed.

Lemma send_unsent body r :
  headersSent r = false → Res.send body r = Normal (emit (Sent (headers r) body) r).
Proof. intros Hr. unfold Res.send. rewrite Hr. reflexivity. Qed.

Lemma redirect_unsent location r :
  headersSent r = false → Res.redirect location r = Normal (emit (Redirected location) r).
Proof. intros Hr. unfold Res.redirect. rewrite Hr. reflexivity. Qed.

Lemma set_format_same a : set_format (format (locals a)) a = a.
Proof. destruct a as [[] ? ? ?]; reflexivity. Qed.

(** The [catch] block always settles the call: it redirects when nothing
    has gone out yet, and it logs the error in either case. *)
Lemma catch_block_settles env u e app r :
  catch_block env u e app r =
    Fulfilled (gc_hint (gc_exposed env) (logger (LogError (locals app) e) app))
              (if headersSent r then r else emit (Redirected u) r).
Proof.
  unfold catch_block. destruct (headersSent r) eqn:Hr; [reflexivity|].
  rewrite redirect_unsent by exact Hr. reflexivity.
Qed.

(** ** One attempt of the handler *)

Section Attempt.

Context (pf : Platform) (env : Process) (w : World).

(** The run of one attempt, [await] by [await]. *)
Lemma run_attempt fuel rq alt app r seen :
  run w seen (handleImageProxyRequest pf env (S fuel) rq alt app r) =
    let app1 := entered alt app in
    let u := url (locals app) in
    let frq := upstream_request pf env rq u in
    let seen1 := seen ++ [Fetched frq] in
    match superagent_get w (fetches seen) frq with
    | FetchThrow e => run w seen1 (catch_block env u e app1 r)
    | FetchOk hs body =>
        match Res.set hs r with
        | Throw e => run w seen1 (catch_block env u e app1 r)
        | Normal r1 =>
            let seen2 := seen1 ++ [Compressed (codec_of env) body (locals app1)] in
            match codec_call w (compressions seen1) (codec_of env) body (locals app1) with
            | CompressThrow e => run w seen2 (catch_block env u e app1 r1)
            | CompressOk result =>
                run w seen2
                  (decide_response env (handleImageProxyRequest pf env fuel rq true)
                     u alt body result app1 r1)
            end
        end
    end.
Proof.
  simpl. unfold upstream_request, entered, codec_of, best_format_mode.
  destruct (superagent_get _ _ _) as [hs body|e]; [|reflexivity].
  destruct (Res.set hs r) as [r1|e]; [|reflexivity].
  simpl. destruct (codec_call _ _ _ _ _); reflexivity.
Qed.

(** The decision on a response whose headers are not out yet. *)
Lemma decide_response_unsent retry u alt body result app r :
  headersSent r = false →
  decide_response env retry u alt body result app r =
    let r1 := with_headers (delete "transfer-encoding" (headers r)) r in
    if Z.of_nat (length body) - image_info_size result >? 0
    then Fulfilled app (Res.on_close (served body result r1))
    else if negb alt && alternative_enabled env
    then retry (logger (LogNoReduction (locals app) (Z.of_nat (length body))
                                       (image_info_size result)) app) r1
    else Fulfilled app (Res.on_close (emit (Redirected u) r1)).
Proof.
  intros Hr. unfold decide_response.
  rewrite removeHeader_unsent by exact Hr.
  change (JS.toLowerCase "transfer-encoding") with "transfer-encoding".
  set (r1 := with_headers _ r).
  assert (Hr1 : headersSent r1 = false) by exact Hr.
  cbv zeta. destruct (_ >? 0) eqn:Hwin.
  - fold (win_fields body result). rewrite set_unsent by exact Hr1.
    rewrite send_unsent by exact Hr1. reflexivity.
  - fold (alternative_enabled env). destruct (negb alt && _); [reflexivity|].
    rewrite redirect_unsent by exact Hr1. reflexivity.
Qed.

End Attempt.

Example sample_entries :
  query_entries Sample.platform Sample.photo_request
  = [("url", "http://img.example/a.png"); ("l", "40")].
Proof. reflexivity. Qed.

Example sample_context :
  parseRequestParameters Sample.platform Sample.photo_request Sample.idle_app
    Sample.fresh_response
  = Next (set_locals Sample.photo_locals Sample.idle_app) Sample.fresh_response.
Proof. reflexivity. Qed.

Example legacy_prefix_rewritten :
  LegacyPrefix.replace "HTTP://1.1.2.3/bmi/https://img.example/a.png"
  = "http://img.example/a.png".
Proof. reflexivity. Qed.

Example no_question_mark_slice : JS.slice (JS.indexOf "?" "/") "/" = "/".
Proof. reflexivity. Qed.

(** ** The size comparison *)

(** C4: the compressed bytes are served if and only if the compressed size
    is strictly below the original size; when it is not (a tie included) the
    attempt sends no image and goes on to the alternative attempt or to the
    redirect. *)
Theorem strict_win_decision pf env fuel rq u alt body result app r :
  headersSent r = false →
  let t := decide_response env (handleImageProxyRequest pf env fuel rq true)
             u alt body result app r in
  let r1 := with_headers (delete "transfer-encoding" (headers r)) r in
  (serves result t ↔ image_info_size result < Z.of_nat (length body))
  ∧ (Z.of_nat (length body) ≤ image_info_size result →
     t = if negb alt && alternative_enabled env
         then handleImageProxyRequest pf env fuel rq true
                (logger (LogNoReduction (locals app) (Z.of_nat (length body))
                                        (image_info_size result)) app) r1
         else Fulfilled app (Res.on_close (emit (Redirected u) r1))).
Proof.
  intros Hr t r1. subst t.
  rewrite decide_response_unsent by exact Hr. cbv zeta. fold r1.
  destruct (_ >? 0) eqn:Hwin.
  - apply Z.gtb_lt in Hwin. split; [|lia].
    split; [lia|]. intros _. simpl. rewrite last_snoc. eauto.
  - assert (Hle : Z.of_nat (length body) ≤ image_info_size result).
    { destruct (Z.gtb_spec (Z.of_nat (length body) - image_info_size result) 0); [done|lia]. }
    split; [|reflexivity].
    split; [|lia]. intros Hs. exfalso.
    destruct (negb alt && alternative_enabled env).
    + destruct fuel; exact Hs.
    + simpl in Hs. rewrite last_snoc in Hs. destruct Hs as [h Hs]. discriminate Hs.
Qed.

Lemma strict_win_decision_witness :
  headersSent Sample.fresh_response = false
  ∧ decide_response (Sample.process None (Some "true"))
      (handleImageProxyRequest Sample.platform (Sample.process None (Some "true")) 1
         Sample.photo_request true)
      "http://img.example/a.png" true (Sample.bytes 1000) (Sample.image "webp" 1000)
      Sample.idle_app Sample.fresh_response
    = Fulfilled Sample.idle_app
        (Res.on_close (emit (Redirected "http://img.example/a.png")
           (with_headers (delete "transfer-encoding" (headers Sample.fresh_response))
              Sample.fresh_response))).
Proof.
  split; [reflexivity|].
  apply (strict_win_decision Sample.platform (Sample.process None (Some "true")) 1
           Sample.photo_request "http://img.example/a.png" true
           (Sample.bytes 1000) (Sample.image "webp" 1000)
           Sample.idle_app Sample.fresh_response eq_refl).
  vm_compute. discriminate.
Defined.

(** ** Counting the awaited calls of a run *)

Lemma fetches_snoc_fetch seen rq : fetches (seen ++ [Fetched rq]) = S (fetches seen).
Proof. unfold fetches. rewrite filter_app, length_app. simpl. lia. Qed.

Lemma fetches_snoc_compress seen c b p :
  fetches (seen ++ [Compressed c b p]) = fetches seen.
Proof. unfold fetches. rewrite filter_app, length_app. simpl. lia. Qed.

Lemma compressions_snoc_fetch seen rq : compressions (seen ++ [Fetched rq]) = compressions seen.
Proof. unfold compressions. rewrite filter_app, length_app. simpl. lia. Qed.

Lemma compressions_snoc_compress seen c b p :
  compressions (seen ++ [Compressed c b p]) = S (compressions seen).
Proof. unfold compressions. rewrite filter_app, length_app. simpl. lia. Qed.

Lemma fetches_app seen more : fetches (seen ++ more) = (fetches seen + fetches more)%nat.
Proof. unfold fetches. rewrite filter_app, length_app. reflexivity. Qed.

Lemma compressions_app seen more :
  compressions (seen ++ more) = (compressions seen + compressions more)%nat.
Proof. unfold compressions. rewrite filter_app, length_app. reflexivity. Qed.

Lemma fetches_first_pair rq c b p : fetches [Fetched rq; Compressed c b p] = 1%nat.
Proof. reflexivity. Qed.

Create Rewrite HintDb counts.

#[local] Hint Rewrite fetches_snoc_fetch fetches_snoc_compress
  compressions_snoc_fetch compressions_snoc_compress : counts.

(** ** The win path *)

(** C7: on the win path the response goes out without [transfer-encoding]
    and with [content-encoding: identity], [content-type] of the format of
    the codec result, [content-length] the compressed size, [x-original-size]
    the original size and [x-bytes-saved] their difference; the body is the
    compressed bytes. *)
Theorem win_path_response pf env w fuel rq alt app r seen hs body result :
  headersSent r = false →
  superagent_get w (fetches seen) (upstream_request pf env rq (url (locals app)))
    = FetchOk hs body →
  codec_call w (compressions seen) (codec_of env) body (locals (entered alt app))
    = CompressOk result →
  image_info_size result < Z.of_nat (length body) →
  let R := run w seen (handleImageProxyRequest pf env (S fuel) rq alt app r) in
  ∃ h,
    status R = fulfilled
    ∧ emitted (final_response R) = emitted r ++ [Sent h (Bytes (image_data result))]
    ∧ h = store_fields (win_fields body result)
            (delete "transfer-encoding" (store_fields hs (headers r)))
    ∧ h !! "transfer-encoding" = None
    ∧ h !! "content-encoding" = Some "identity"
    ∧ h !! "content-type" = Some ("image/" +:+ result_format result)
    ∧ h !! "content-length" = Some (JS.toString (image_info_size result))
    ∧ h !! "x-original-size" = Some (JS.toString (Z.of_nat (length body)))
    ∧ h !! "x-bytes-saved"
        = Some (JS.toString (Z.of_nat (length body) - image_info_size result)).
Proof.
  intros Hr Hfetch Hcodec Hwin R. subst R.
  rewrite run_attempt. cbv zeta. rewrite Hfetch.
  rewrite set_unsent by exact Hr.
  rewrite compressions_snoc_fetch, Hcodec.
  rewrite decide_response_unsent by exact Hr.
  cbv zeta.
  replace (_ >? 0) with true by (symmetry; apply Z.gtb_lt; lia).
  eexists. split; [reflexivity|]. split; [reflexivity|]. split; [reflexivity|].
  unfold store_fields at 1, win_fields. cbn [fold_left fst snd].
  change (JS.toLowerCase "content-encoding") with "content-encoding".
  change (JS.toLowerCase "content-type") with "content-type".
  change (JS.toLowerCase "content-length") with "content-length".
  change (JS.toLowerCase "x-original-size") with "x-original-size".
  change (JS.toLowerCase "x-bytes-saved") with "x-bytes-saved".
  cbn [headers with_headers].
  repeat split; by simplify_map_eq.
Qed.

Lemma win_path_response_witness :
  let R := run Sample.winning_world []
             (handleImageProxyRequest Sample.platform (Sample.process None None) 1
                Sample.photo_request false
                (set_locals Sample.photo_locals Sample.idle_app) Sample.fresh_response) in
  ∃ h,
    status R = fulfilled
    ∧ emitted (final_response R) = [Sent h (Bytes (Sample.bytes 600))]
    ∧ h = store_fields (win_fields (Sample.bytes 1000) (Sample.image "webp" 600))
            (delete "transfer-encoding"
               (store_fields [("content-type", "image/png"); ("transfer-encoding", "chunked")]
                  ∅))
    ∧ h !! "transfer-encoding" = None
    ∧ h !! "content-encoding" = Some "identity"
    ∧ h !! "content-type" = Some "image/webp"
    ∧ h !! "content-length" = Some "600"
    ∧ h !! "x-original-size" = Some "1000"
    ∧ h !! "x-bytes-saved" = Some "400".
Proof.
  refine (win_path_response Sample.platform (Sample.process None None)
            Sample.winning_world 0 Sample.photo_request false
            (set_locals Sample.photo_locals Sample.idle_app) Sample.fresh_response []
            [("content-type", "image/png"); ("transfer-encoding", "chunked")]
            (Sample.bytes 1000) (Sample.image "webp" 600)
            eq_refl eq_refl eq_refl _).
  vm_compute. reflexivity.
Defined.

(** ** The idle timer *)

(** C8, as the code has it: the tick asks for a collection exactly when the
    collector is exposed and the elapsed time lies in the closed range from
    10 000 ms to 60 000 ms, both ends included; otherwise it changes
    nothing. *)
Theorem idle_tick_window env now app :
  let elapsed := now - lastRequestTimestamp app in
  (gcCalls (idle_tick env now app) = S (gcCalls app)
   ↔ gc_exposed env = true ∧ 10000 ≤ elapsed ≤ 60000)
  ∧ (¬ (gc_exposed env = true ∧ 10000 ≤ elapsed ≤ 60000) → idle_tick env now app = app).
Proof.
  intros elapsed. unfold idle_tick, gc_hint. fold elapsed.
  change (10 * 1000) with 10000. change (60 * 1000) with 60000.
  destruct (Z.ltb_spec elapsed 10000) as [Hlo|Hlo];
    destruct (Z.gtb_spec elapsed 60000) as [Hhi|Hhi];
    destruct (gc_exposed env); simpl;
    (split; [split|]);
    try (intros [He Hin]); try intros Hn;
    try reflexivity; try discriminate; try lia;
    try (split; [reflexivity|lia]);
    try (exfalso; apply Hn; split; [reflexivity|lia]).
Qed.

(** C8, a tick at exactly 10 000 ms, and one at exactly 60 000 ms, after the
    last request: both ask for a collection, though neither elapsed time is
    strictly inside the window. *)
Lemma idle_tick_fires_on_the_bounds :
  gcCalls (idle_tick (Sample.process None None) 10000 Sample.idle_app) = 1%nat
  ∧ gcCalls (idle_tick (Sample.process None None) 60000 Sample.idle_app) = 1%nat
  ∧ gcCalls Sample.idle_app = 0%nat
  ∧ ¬ (10000 < 10000 - lastRequestTimestamp Sample.idle_app < 60000)
  ∧ ¬ (10000 < 60000 - lastRequestTimestamp Sample.idle_app < 60000).
Proof. repeat split; try reflexivity; simpl; lia. Qed.

(** ** The Parameter Extractor *)

Lemma collect_keeps_url_absent entries :
  ∀ acc : gmap string string * string,
    (∀ v, (("url" : string), v) ∉ entries) →
    acc.1 !! "url" = None →
    (fold_left collect entries acc).1 !! "url" = None.
Proof.
  induction entries as [|[k v] entries IH]; intros [f x] Hno Hacc; [exact Hacc|].
  simpl. apply IH.
  - intros v' Hin. apply (Hno v'). by right.
  - destruct (bool_decide _); simpl; [|exact Hacc].
    rewrite lookup_insert_ne; [exact Hacc|].
    intros ->. apply (Hno v). by left.
Qed.

(** C10: a request whose query has no [url] entry is answered by the
    extractor with the plain text [bandwidth-hero-proxy]; [next()] is not
    called, so the route issues no upstream fetch and no compression and
    leaves the application object as it was. *)
Theorem missing_url_identifies pf env w fuel now rq app r seen :
  (∀ v, (("url" : string), v) ∉ query_entries pf rq) →
  let R := run w seen (get_root pf env fuel now rq app r) in
  (∀ app' r', parseRequestParameters pf rq app r ≠ Next app' r')
  ∧ trace R = seen
  ∧ final_app R = app
  ∧ (headersSent r = false →
     parseRequestParameters pf rq app r
       = Stop app (emit (Sent (headers r) (Text "bandwidth-hero-proxy")) r)
     ∧ status R = fulfilled
     ∧ final_response R = emit (Sent (headers r) (Text "bandwidth-hero-proxy")) r).
Proof.
  intros Hno R. subst R. unfold get_root, parseRequestParameters.
  pose proof (collect_keeps_url_absent (query_entries pf rq) (∅, EmptyString) Hno
                (lookup_empty _)) as Hurl.
  destruct (fold_left collect _ _) as [f x]. simpl in Hurl. rewrite Hurl.
  destruct (headersSent r) eqn:Hr.
  - unfold Res.send. rewrite Hr. simpl. repeat split; try done.
  - rewrite send_unsent by exact Hr. simpl. repeat split; try done.
Qed.

Lemma missing_url_identifies_witness :
  let rq := mkRequest "/?bw=1&x=2" [] in
  let R := run Sample.winning_world []
             (get_root Sample.platform (Sample.process None None) 2 7 rq
                Sample.idle_app Sample.fresh_response) in
  (∀ app' r',
     parseRequestParameters Sample.platform rq Sample.idle_app Sample.fresh_response
       ≠ Next app' r')
  ∧ trace R = []
  ∧ final_app R = Sample.idle_app
  ∧ (headersSent Sample.fresh_response = false →
     parseRequestParameters Sample.platform rq Sample.idle_app Sample.fresh_response
       = Stop Sample.idle_app
           (emit (Sent ∅ (Text "bandwidth-hero-proxy")) Sample.fresh_response)
     ∧ status R = fulfilled
     ∧ final_response R
       = emit (Sent ∅ (Text "bandwidth-hero-proxy")) Sample.fresh_response).
Proof.
  apply (missing_url_identifies Sample.platform (Sample.process None None)
           Sample.winning_world 2 7 (mkRequest "/?bw=1&x=2" []) Sample.idle_app
           Sample.fresh_response []).
  intros v Hin. vm_compute in Hin.
  apply list_elem_of_In in Hin. simpl in Hin.
  destruct Hin as [H|[H|[]]]; discriminate H.
Defined.

(** ** Whole runs of the handler *)

Section Runs.

Context (pf : Platform) (env : Process) (w : World).

Lemma run_catch_block u e app r seen :
  run w seen (catch_block env u e app r) =
    mkResult fulfilled
      (gc_hint (gc_exposed env) (logger (LogError (locals app) e) app))
      (if headersSent r then r else emit (Redirected u) r) seen.
Proof. rewrite catch_block_settles. reflexivity. Qed.

(** On the alternative attempt the self-call is out of reach. *)
Lemma decide_response_alt retry retry' u body result app r :
  decide_response env retry u true body result app r
  = decide_response env retry' u true body result app r.
Proof.
  unfold decide_response. destruct (Res.removeHeader _ _); [|reflexivity].
  destruct (_ >? 0); reflexivity.
Qed.

(** Runs of the decision agree when runs of the self-call agree. *)
Lemma run_decide_response_ext retry retry' u alt body result app r seen :
  (∀ app' r' seen', run w seen' (retry app' r') = run w seen' (retry' app' r')) →
  run w seen (decide_response env retry u alt body result app r)
  = run w seen (decide_response env retry' u alt body result app r).
Proof.
  intros Hext. unfold decide_response. destruct (Res.removeHeader _ _); [|reflexivity].
  destruct (_ >? 0); [reflexivity|].
  destruct (negb alt && _); [apply Hext|reflexivity].
Qed.

(** One unit of fuel is all the alternative attempt uses. *)
Lemma run_alternative_fuel fuel rq app r seen :
  run w seen (handleImageProxyRequest pf env (S fuel) rq true app r)
  = run w seen (handleImageProxyRequest pf env 1 rq true app r).
Proof.
  rewrite !run_attempt. cbv zeta.
  destruct (superagent_get _ _ _) as [hs body|e]; [|reflexivity].
  destruct (Res.set hs r) as [r1|e]; [|reflexivity].
  destruct (codec_call _ _ _ _ _) as [result|e]; [|reflexivity].
  rewrite (decide_response_alt _ (handleImageProxyRequest pf env 0 rq true)).
  reflexivity.
Qed.

(** Two units are all a first attempt uses. *)
Lemma run_first_fuel fuel rq app r seen :
  run w seen (handleImageProxyRequest pf env (S (S fuel)) rq false app r)
  = run w seen (handleImageProxyRequest pf env 2 rq false app r).
Proof.
  rewrite !run_attempt. cbv zeta.
  destruct (superagent_get _ _ _) as [hs body|e]; [|reflexivity].
  destruct (Res.set hs r) as [r1|e]; [|reflexivity].
  destruct (codec_call _ _ _ _ _) as [result|e]; [|reflexivity].
  apply run_decide_response_ext. intros. apply run_alternative_fuel.
Qed.

Lemma entered_false app : entered false app = app.
Proof. apply set_format_same. Qed.

Lemma locals_gc_hint b app : locals (gc_hint b app) = locals app.
Proof. destruct b; reflexivity. Qed.

Ltac settle Hr :=
  rewrite ?run_catch_block; cbn [status trace final_response final_app run];
  autorewrite with counts;
  rewrite ?locals_gc_hint;
  unfold answered; cbn [headersSent emitted with_headers emit Res.on_close served
                        locals logger];
  rewrite ?Hr; cbn [headersSent emitted with_headers emit Res.on_close];
  repeat split;
  first [solve [eauto] | lia | left; split; [lia | reflexivity]].

(** The alternative attempt settles by itself: one fetch, at most one
    compression, one answer; the stored format is the flipped one. *)
Lemma run_alternative_summary fuel rq app r seen :
  let R := run w seen (handleImageProxyRequest pf env (S fuel) rq true app r) in
  status R = fulfilled
  ∧ fetches (trace R) = S (fetches seen)
  ∧ (compressions seen ≤ compressions (trace R) ≤ S (compressions seen))%nat
  ∧ answered r (final_response R)
  ∧ locals (final_app R) = locals (entered true app).
Proof.
  cbv zeta. rewrite run_attempt. cbv zeta.
  destruct (headersSent r) eqn:Hr;
    (destruct (superagent_get _ _ _) as [hs body|e]; [|settle Hr]).
  - destruct hs as [|[n v] hs].
    + cbn [Res.set]. destruct (codec_call _ _ _ _ _) as [result|e]; [|settle Hr].
      unfold decide_response, Res.removeHeader. rewrite Hr. settle Hr.
    + rewrite set_sent by exact Hr. settle Hr.
  - rewrite set_unsent by exact Hr.
    destruct (codec_call _ _ _ _ _) as [result|e]; [|settle Hr].
    rewrite decide_response_unsent by exact Hr. cbv zeta.
    destruct (_ >? 0); [settle Hr|]. cbn [negb andb]. settle Hr.
Qed.

(** A first attempt settles after at most one self-call: at most two
    fetches, at most two compressions, one answer; the stored context is
    the one it found, with the format flipped when the self-call was made. *)
Lemma run_first_summary fuel rq app r seen :
  let R := run w seen (handleImageProxyRequest pf env (S (S fuel)) rq false app r) in
  status R = fulfilled
  ∧ (compressions seen ≤ compressions (trace R) ≤ S (S (compressions seen)))%nat
  ∧ answered r (final_response R)
  ∧ ((fetches (trace R) = S (fetches seen) ∧ locals (final_app R) = locals app)
     ∨ (fetches (trace R) = S (S (fetches seen))
        ∧ locals (final_app R) = locals (entered true app))).
Proof.
  cbv zeta. rewrite run_attempt. cbv zeta. rewrite !entered_false.
  destruct (headersSent r) eqn:Hr;
    (destruct (superagent_get _ _ _) as [hs body|e]; [|settle Hr]).
  - destruct hs as [|[n v] hs].
    + cbn [Res.set]. destruct (codec_call _ _ _ _ _) as [result|e]; [|settle Hr].
      unfold decide_response, Res.removeHeader. rewrite Hr. settle Hr.
    + rewrite set_sent by exact Hr. settle Hr.
  - rewrite set_unsent by exact Hr.
    destruct (codec_call _ _ _ _ _) as [result|e]; [|settle Hr].
    rewrite decide_response_unsent by exact Hr. cbv zeta.
    destruct (_ >? 0); [settle Hr|].
    destruct (negb false && alternative_enabled env); [|settle Hr].
    match goal with
    | |- context [run w ?s (handleImageProxyRequest pf env (S fuel) rq true ?a ?r1)] =>
        pose proof (run_alternative_summary fuel rq a r1 s) as Halt
    end.
    cbv zeta in Halt. destruct Halt as (Hst & Hf & Hc & Hans & Hloc).
    unfold answered in Hans.
    autorewrite with counts in Hf, Hc.
    cbn [headersSent emitted with_headers] in Hans. rewrite Hr in Hans.
    unfold answered. rewrite Hr.
    repeat split; try assumption; try lia.
    right. split; [exact Hf | exact Hloc].
Qed.

End Runs.

(** ** The fallback *)

(** C2: the handler settles with two units of recursion depth, so a request
    makes at most two compression attempts; on the alternative attempt a
    non-win ends in the redirect to the original URL after that one
    compression, with no further attempt. *)
Theorem fallback_depth_one pf env w fuel rq app r seen :
  (2 ≤ fuel)%nat →
  let R := run w seen (handleImageProxyRequest pf env fuel rq false app r) in
  status R = fulfilled
  ∧ R = run w seen (handleImageProxyRequest pf env 2 rq false app r)
  ∧ (compressions (trace R) ≤ compressions seen + 2)%nat
  ∧ (fetches (trace R) ≤ fetches seen + 2)%nat
  ∧ (∀ app' r' seen' hs body result,
       headersSent r' = false →
       superagent_get w (fetches seen') (upstream_request pf env rq (url (locals app')))
         = FetchOk hs body →
       codec_call w (compressions seen') (codec_of env) body (locals (entered true app'))
         = CompressOk result →
       Z.of_nat (length body) ≤ image_info_size result →
       let A := run w seen' (handleImageProxyRequest pf env (pred fuel) rq true app' r') in
       status A = fulfilled
       ∧ emitted (final_response A) = emitted r' ++ [Redirected (url (locals app'))]
       ∧ trace A = seen' ++ [Fetched (upstream_request pf env rq (url (locals app')));
                             Compressed (codec_of env) body (locals (entered true app'))]).
Proof.
  intros Hfuel. destruct fuel as [|[|fuel]]; [lia|lia|]. cbv zeta.
  pose proof (run_first_summary pf env w fuel rq app r seen) as Hsum.
  cbv zeta in Hsum. destruct Hsum as (Hst & Hc & _ & Hf).
  split; [exact Hst|]. split; [apply run_first_fuel|].
  split; [lia|]. split; [destruct Hf as [[Hf _]|[Hf _]]; lia|].
  intros app' r' seen' hs body result Hr Hfetch Hcodec Htie.
  cbn [pred]. rewrite run_attempt. cbv zeta. rewrite Hfetch.
  rewrite set_unsent by exact Hr.
  rewrite compressions_snoc_fetch, Hcodec.
  rewrite decide_response_unsent by exact Hr. cbv zeta.
  replace (_ >? 0) with false
    by (symmetry; destruct (Z.gtb_spec (Z.of_nat (length body) - image_info_size result) 0);
        [lia|reflexivity]).
  cbn [negb andb run status final_response trace emitted Res.on_close emit with_headers].
  rewrite <- app_assoc. repeat split.
Qed.

Lemma fallback_depth_one_witness :
  let R := run Sample.tie_world []
             (handleImageProxyRequest Sample.platform
                (Sample.process None (Some "true")) 5 Sample.photo_request false
                Sample.photo_app Sample.fresh_response) in
  (2 ≤ 5)%nat
  ∧ status R = fulfilled
  ∧ (compressions (trace R) ≤ 2)%nat
  ∧ compressions (trace R) = 2%nat
  ∧ emitted (final_response R) = [Redirected "http://img.example/a.png"].
Proof.
  cbv zeta.
  pose proof (fallback_depth_one Sample.platform (Sample.process None (Some "true"))
                Sample.tie_world 5 Sample.photo_request Sample.photo_app
                Sample.fresh_response [] (le_S _ _ (le_S _ _ (le_S _ _ (le_n 2)))))
    as H.
  cbv zeta in H. destruct H as (Hst & _ & Hc & _).
  split; [repeat constructor|]. split; [exact Hst|]. split; [exact Hc|].
  split; reflexivity.
Defined.

(** A first attempt that saves nothing, with the fallback enabled, hands
    over to the alternative attempt. *)
Lemma first_attempt_hands_over pf env w fuel rq app r seen hs body result :
  headersSent r = false →
  alternative_enabled env = true →
  superagent_get w (fetches seen) (upstream_request pf env rq (url (locals app)))
    = FetchOk hs body →
  codec_call w (compressions seen) (codec_of env) body (locals app) = CompressOk result →
  Z.of_nat (length body) ≤ image_info_size result →
  run w seen (handleImageProxyRequest pf env (S (S fuel)) rq false app r)
  = run w (seen ++ [Fetched (upstream_request pf env rq (url (locals app)));
                    Compressed (codec_of env) body (locals app)])
      (handleImageProxyRequest pf env 1 rq true
         (logger (LogNoReduction (locals app) (Z.of_nat (length body))
                                 (image_info_size result)) app)
         (prepared hs r)).
Proof.
  intros Hr Hflag Hfetch Hcodec Htie.
  rewrite run_attempt. cbv zeta. rewrite !entered_false, Hfetch.
  rewrite set_unsent by exact Hr.
  rewrite compressions_snoc_fetch, Hcodec.
  rewrite decide_response_unsent by exact Hr. cbv zeta.
  replace (_ >? 0) with false
    by (symmetry;
        destruct (Z.gtb_spec (Z.of_nat (length body) - image_info_size result) 0);
        [lia|reflexivity]).
  rewrite Hflag. cbn [negb andb]. rewrite <- app_assoc.
  apply run_alternative_fuel.
Qed.

(** C1, as the code has it: after a first attempt without reduction, with
    the fallback enabled, the handler calls itself exactly once; that call
    flips the format stored in the application object at that moment and
    fetches the URL stored there, a second fetch, and it hands the bytes of
    this second fetch, not those of the first, to the codec. *)
Theorem fallback_fetches_again pf env w fuel rq app r seen hs body result :
  headersSent r = false →
  alternative_enabled env = true →
  Z.of_nat (length body) ≤ image_info_size result →
  (∀ app1 app2 app3 hs2 body2,
     let retry :=
       resume_both (handleImageProxyRequest pf env (S (S fuel)) rq false app r)
                   (FetchOk hs body) app1 (CompressOk result) app2 in
     let again := retry ≫= fun t => resume_fetch t (FetchOk hs2 body2) app3 in
     retry ≫= awaited_request = Some (upstream_request pf env rq (url (locals app2)))
     ∧ format <$> (locals <$> (task_app <$> retry)) = Some (flip (format (locals app2)))
     ∧ again ≫= awaited_body = Some body2
     ∧ again ≫= awaited_params = Some (locals app3))
  ∧ (superagent_get w (fetches seen) (upstream_request pf env rq (url (locals app)))
       = FetchOk hs body →
     codec_call w (compressions seen) (codec_of env) body (locals app) = CompressOk result →
     let first := [Fetched (upstream_request pf env rq (url (locals app)));
                   Compressed (codec_of env) body (locals app)] in
     let R := run w seen (handleImageProxyRequest pf env (S (S fuel)) rq false app r) in
     R = run w (seen ++ first)
           (handleImageProxyRequest pf env 1 rq true
              (logger (LogNoReduction (locals app) (Z.of_nat (length body))
                                      (image_info_size result)) app)
              (prepared hs r))
     ∧ fetches (trace R) = (fetches seen + 2)%nat
     ∧ (∃ again rest,
          trace R = seen ++ first ++ Fetched again :: rest
          ∧ match superagent_get w (S (fetches seen)) again with
            | FetchOk _ body2 =>
                rest = [Compressed (codec_of env) body2 (locals (entered true app))]
            | FetchThrow _ => rest = []
            end)
     ∧ format (locals (final_app R)) = flip (format (locals app))).
Proof.
  intros Hr Hflag Htie. split.
  - intros app1 app2 app3 hs2 body2 retry again. subst again retry.
    unfold resume_both. cbn [handleImageProxyRequest resume_fetch].
    rewrite set_unsent by exact Hr. cbn [mbind option_bind resume_compress].
    rewrite decide_response_unsent by exact Hr. cbv zeta.
    replace (_ >? 0) with false
      by (symmetry;
          destruct (Z.gtb_spec (Z.of_nat (length body) - image_info_size result) 0);
          [lia|reflexivity]).
    rewrite Hflag. cbn [negb andb handleImageProxyRequest resume_fetch].
    split; [reflexivity|]. split; [reflexivity|].
    rewrite set_unsent by exact Hr. split; reflexivity.
  - intros Hfetch Hcodec first R. subst R first.
    pose proof (first_attempt_hands_over pf env w fuel rq app r seen hs body result
                  Hr Hflag Hfetch Hcodec Htie) as Hrun.
    rewrite Hrun. split; [reflexivity|].
    pose proof (run_alternative_summary pf env w 0 rq
                  (logger (LogNoReduction (locals app) (Z.of_nat (length body))
                                          (image_info_size result)) app)
                  (prepared hs r)
                  (seen ++ [Fetched (upstream_request pf env rq (url (locals app)));
                            Compressed (codec_of env) body (locals app)])) as Halt.
    cbv zeta in Halt. destruct Halt as (_ & Hf & _ & _ & Hloc).
    split.
    { rewrite Hf, fetches_app, fetches_first_pair. lia. }
    split; [|rewrite Hloc; reflexivity].
    rewrite run_attempt. cbv zeta.
    assert (Hn : fetches (seen ++ [Fetched (upstream_request pf env rq (url (locals app)));
                                   Compressed (codec_of env) body (locals app)])
                 = S (fetches seen)).
    { rewrite fetches_app, fetches_first_pair. lia. }
    rewrite Hn. cbn [locals logger url]. clear Hcodec Hfetch Hrun Hf Hloc Hn.
    exists (upstream_request pf env rq (url (locals app))).
    destruct (superagent_get w (S (fetches seen)) _) as [hs2 body2|e].
    + rewrite set_unsent by exact Hr.
      destruct (codec_call _ _ _ _ _) as [result2|e].
      * rewrite decide_response_unsent by exact Hr. cbv zeta. cbn [negb andb].
        eexists. split; [|reflexivity].
        destruct (_ >? 0); cbn [run trace]; rewrite <- !app_assoc; reflexivity.
      * rewrite run_catch_block. cbn [trace]. eexists. split; [|reflexivity].
        rewrite <- !app_assoc. reflexivity.
    + rewrite run_catch_block. cbn [trace]. exists []. split; [|reflexivity].
      rewrite <- !app_assoc. reflexivity.
Qed.

Lemma fallback_fetches_again_witness :
  let env := Sample.process None (Some "true") in
  let frq := upstream_request Sample.platform env Sample.photo_request
               "http://img.example/a.png" in
  let R := run Sample.changing_world []
             (handleImageProxyRequest Sample.platform env 2 Sample.photo_request false
                Sample.photo_app Sample.fresh_response) in
  let retry :=
    resume_both (handleImageProxyRequest Sample.platform env 2 Sample.photo_request false
                   Sample.photo_app Sample.fresh_response)
                (Sample.upstream_png 1000) Sample.photo_app
                (CompressOk (Sample.image "jpeg" 1000))
                (set_locals Sample.gray_locals Sample.photo_app) in
  fetches (trace R) = 2%nat
  ∧ format (locals (final_app R)) = jpeg
  ∧ trace R = [Fetched frq; Compressed compressImage (Sample.bytes 1000) Sample.photo_locals;
               Fetched frq;
               Compressed compressImage (Sample.bytes 2000)
                 (mkLocals "http://img.example/a.png" jpeg false (Some 40))]
  ∧ fetch_url <$> (retry ≫= awaited_request) = Some "http://img.example/b.png"
  ∧ (retry ≫= fun t => resume_fetch t (Sample.upstream_png 2000)
                          (set_locals Sample.gray_locals Sample.photo_app))
      ≫= awaited_body
    = Some (Sample.bytes 2000).
Proof.
  cbv zeta.
  assert (Htie : Z.of_nat (length (Sample.bytes 1000))
                 ≤ image_info_size (Sample.image "jpeg" 1000))
    by (vm_compute; discriminate).
  destruct (fallback_fetches_again Sample.platform (Sample.process None (Some "true"))
              Sample.changing_world 0 Sample.photo_request Sample.photo_app
              Sample.fresh_response []
              [("content-type", "image/png"); ("transfer-encoding", "chunked")]
              (Sample.bytes 1000) (Sample.image "jpeg" 1000)
              eq_refl eq_refl Htie) as [Hany Hrun].
  destruct (Hrun eq_refl eq_refl) as (_ & Hf & _ & Hfmt).
  destruct (Hany Sample.photo_app (set_locals Sample.gray_locals Sample.photo_app)
              (set_locals Sample.gray_locals Sample.photo_app)
              [("content-type", "image/png"); ("transfer-encoding", "chunked")]
              (Sample.bytes 2000)) as (Hrq & _ & Hbody & _).
  split; [exact Hf|]. split; [exact Hfmt|]. split; [reflexivity|].
  split; [|exact Hbody].
  change (fetch_url <$> Some (upstream_request Sample.platform
                                (Sample.process None (Some "true")) Sample.photo_request
                                "http://img.example/b.png")
          = Some "http://img.example/b.png").
  reflexivity.
Defined.

(** C1, a run with the fallback enabled and a first attempt that saves
    nothing: the target URL is fetched twice, and the alternative attempt
    compresses the 2000 bytes of the second fetch, not the 1000 bytes of the
    first. *)
Lemma fallback_does_not_reuse_bytes :
  let env := Sample.process None (Some "true") in
  let frq := upstream_request Sample.platform env Sample.photo_request
               "http://img.example/a.png" in
  let R := run Sample.changing_world []
             (handleImageProxyRequest Sample.platform env 2 Sample.photo_request false
                Sample.photo_app Sample.fresh_response) in
  alternative_enabled env = true
  ∧ Z.of_nat (length (Sample.bytes 1000)) - image_info_size (Sample.image "jpeg" 1000) ≤ 0
  ∧ trace R = [Fetched frq; Compressed compressImage (Sample.bytes 1000) Sample.photo_locals;
               Fetched frq;
               Compressed compressImage (Sample.bytes 2000)
                 (mkLocals "http://img.example/a.png" jpeg false (Some 40))]
  ∧ fetches (trace R) = 2%nat
  ∧ Sample.bytes 2000 ≠ Sample.bytes 1000.
Proof.
  cbv zeta. split; [reflexivity|]. split; [vm_compute; discriminate|].
  split; [reflexivity|]. split; [reflexivity|].
  intros H. apply (f_equal length) in H. vm_compute in H. discriminate H.
Qed.

(** C3, as the code has it: whether single-format or best-format mode is in
    effect, an attempt that fetched and compressed is followed by a second
    one exactly when it is the first attempt, the fallback flag is enabled
    and nothing was saved; in every other case the run ends with that one
    fetch and one compression. *)
Theorem retry_condition pf env w fuel rq alt app r seen hs body result :
  headersSent r = false →
  superagent_get w (fetches seen) (upstream_request pf env rq (url (locals app)))
    = FetchOk hs body →
  codec_call w (compressions seen) (codec_of env) body (locals (entered alt app))
    = CompressOk result →
  let R := run w seen (handleImageProxyRequest pf env (S (S fuel)) rq alt app r) in
  let retried :=
    alt = false ∧ alternative_enabled env = true
    ∧ Z.of_nat (length body) ≤ image_info_size result in
  (fetches (trace R) = (fetches seen + 2)%nat ↔ retried)
  ∧ (¬ retried →
     trace R = seen ++ [Fetched (upstream_request pf env rq (url (locals app)));
                        Compressed (codec_of env) body (locals (entered alt app))]).
Proof.
  intros Hr Hfetch Hcodec R retried. subst R retried.
  destruct alt.
  - pose proof (run_alternative_summary pf env w (S fuel) rq app r seen) as Hsum.
    cbv zeta in Hsum. destruct Hsum as (_ & Hf & _).
    split; [split; [intros H; lia | intros [H _]; discriminate H]|].
    intros _. rewrite run_attempt. cbv zeta. rewrite Hfetch.
    rewrite set_unsent by exact Hr. rewrite compressions_snoc_fetch, Hcodec.
    rewrite decide_response_unsent by exact Hr. cbv zeta. cbn [negb andb].
    destruct (_ >? 0); cbn [run trace]; rewrite <- app_assoc; reflexivity.
  - rewrite entered_false in Hcodec.
    destruct (Z.gtb_spec (Z.of_nat (length body) - image_info_size result) 0) as [Hwin|Hwin].
    + assert (Hone :
        trace (run w seen (handleImageProxyRequest pf env (S (S fuel)) rq false app r))
        = seen ++ [Fetched (upstream_request pf env rq (url (locals app)));
                   Compressed (codec_of env) body (locals (entered false app))]).
      { rewrite run_attempt. cbv zeta. rewrite Hfetch.
        rewrite set_unsent by exact Hr.
        rewrite compressions_snoc_fetch, entered_false, Hcodec.
        rewrite decide_response_unsent by exact Hr. cbv zeta.
        replace (_ >? 0) with true by (symmetry; apply Z.gtb_lt; lia).
        cbn [run trace]. rewrite <- app_assoc. reflexivity. }
      split; [|intros _; exact Hone].
      rewrite Hone, fetches_app, fetches_first_pair.
      split; [intros H; lia | intros (_ & _ & H); lia].
    + destruct (alternative_enabled env) eqn:Hflag.
      * pose proof (first_attempt_hands_over pf env w fuel rq app r seen hs body result
                      Hr Hflag Hfetch Hcodec ltac:(lia)) as Hrun.
        pose proof (run_alternative_summary pf env w 0 rq
                      (logger (LogNoReduction (locals app) (Z.of_nat (length body))
                                              (image_info_size result)) app)
                      (prepared hs r)
                      (seen ++ [Fetched (upstream_request pf env rq (url (locals app)));
                                Compressed (codec_of env) body (locals app)])) as Halt.
        cbv zeta in Halt. destruct Halt as (_ & Hf & _).
        rewrite <- Hrun, fetches_app, fetches_first_pair in Hf.
        split; [split; [intros _; repeat split; lia | intros _; lia]|].
        intros Hn. exfalso. apply Hn. repeat split. lia.
      * assert (Hone :
          trace (run w seen (handleImageProxyRequest pf env (S (S fuel)) rq false app r))
          = seen ++ [Fetched (upstream_request pf env rq (url (locals app)));
                     Compressed (codec_of env) body (locals (entered false app))]).
        { rewrite run_attempt. cbv zeta. rewrite Hfetch.
          rewrite set_unsent by exact Hr.
          rewrite compressions_snoc_fetch, entered_false, Hcodec.
          rewrite decide_response_unsent by exact Hr. cbv zeta.
          replace (_ >? 0) with false
            by (symmetry;
                destruct (Z.gtb_spec (Z.of_nat (length body) - image_info_size result) 0);
                [lia|reflexivity]).
          rewrite Hflag. cbn [negb andb run trace]. rewrite <- app_assoc. reflexivity. }
        split; [|intros _; exact Hone].
        rewrite Hone, fetches_app, fetches_first_pair.
        split; [intros H; lia | intros (_ & H & _); discriminate H].
Qed.

Lemma retry_condition_witness :
  let env := Sample.process (Some "true") (Some "true") in
  let R := run Sample.tie_world []
             (handleImageProxyRequest Sample.platform env 2 Sample.photo_request false
                Sample.photo_app Sample.fresh_response) in
  headersSent Sample.fresh_response = false
  ∧ (fetches (trace R) = 2%nat
     ↔ false = false ∧ alternative_enabled env = true
       ∧ Z.of_nat (length (Sample.bytes 1000)) ≤ image_info_size (Sample.image "webp" 1000)).
Proof.
  cbv zeta. split; [reflexivity|].
  exact (proj1 (retry_condition Sample.platform (Sample.process (Some "true") (Some "true"))
                  Sample.tie_world 0 Sample.photo_request false Sample.photo_app
                  Sample.fresh_response []
                  [("content-type", "image/png"); ("transfer-encoding", "chunked")]
                  (Sample.bytes 1000) (Sample.image "webp" 1000)
                  eq_refl eq_refl eq_refl)).
Defined.

(** C3, a run in best-format mode with the fallback enabled and a first
    attempt that saves nothing: the second attempt is made all the same, so
    the best-format codec is called twice before the redirect. *)
Lemma best_format_mode_retries :
  let env := Sample.process (Some "true") (Some "true") in
  let frq := upstream_request Sample.platform env Sample.photo_request
               "http://img.example/a.png" in
  let R := run Sample.tie_world []
             (handleImageProxyRequest Sample.platform env 2 Sample.photo_request false
                Sample.photo_app Sample.fresh_response) in
  best_format_mode env = true
  ∧ trace R = [Fetched frq;
               Compressed compressImageToBestFormat (Sample.bytes 1000) Sample.photo_locals;
               Fetched frq;
               Compressed compressImageToBestFormat (Sample.bytes 1000)
                 (mkLocals "http://img.example/a.png" jpeg false (Some 40))]
  ∧ compressions (trace R) = 2%nat
  ∧ emitted (final_response R) = [Redirected "http://img.example/a.png"].
Proof. cbv zeta. repeat split. Qed.

(** ** Failures *)

(** C6: when the fetch or the codec of an attempt throws, the handler
    redirects to the original URL exactly when the response headers are not
    out yet; when they are, nothing more is put on the wire; the error is
    logged in both cases and no further attempt follows.  Whatever happens
    in a run, a response is never answered twice. *)
Theorem exception_redirects_unless_sent pf env w fuel rq alt app r seen :
  let frq := upstream_request pf env rq (url (locals app)) in
  let R := run w seen (handleImageProxyRequest pf env (S fuel) rq alt app r) in
  ((∃ e, superagent_get w (fetches seen) frq = FetchThrow e)
   ∨ (∃ hs body e,
        superagent_get w (fetches seen) frq = FetchOk hs body
        ∧ codec_call w (compressions seen) (codec_of env) body (locals (entered alt app))
          = CompressThrow e)) →
  status R = fulfilled
  ∧ emitted (final_response R)
    = emitted r ++ (if headersSent r then [] else [Redirected (url (locals app))])
  ∧ (∃ reason,
       log (final_app R) = log app ++ [LogError (locals (entered alt app)) reason])
  ∧ fetches (trace R) = S (fetches seen)
  ∧ answered r (final_response
                  (run w seen (handleImageProxyRequest pf env (S (S fuel)) rq alt app r))).
Proof.
  intros frq R Hthrow. subst frq R.
  assert (Hlog : ∀ b e a, log (gc_hint b (logger e a)) = log a ++ [e])
    by (intros [] ? ?; reflexivity).
  assert (Hans : answered r (final_response
            (run w seen (handleImageProxyRequest pf env (S (S fuel)) rq alt app r)))).
  { destruct alt.
    - apply (run_alternative_summary pf env w (S fuel) rq app r seen).
    - apply (run_first_summary pf env w fuel rq app r seen). }
  rewrite run_attempt. cbv zeta.
  destruct Hthrow as [[e He]|(hs & body & e & Hfetch & Hcodec)].
  - rewrite He, run_catch_block. cbn [status final_response final_app trace].
    rewrite Hlog. autorewrite with counts.
    destruct (headersSent r); cbn [emitted emit]; rewrite ?app_nil_r; eauto 10.
  - rewrite Hfetch. destruct (headersSent r) eqn:Hr.
    + destruct hs as [|[n v] hs].
      * cbn [Res.set]. rewrite compressions_snoc_fetch, Hcodec, run_catch_block.
        cbn [status final_response final_app trace]. rewrite Hlog, Hr.
        autorewrite with counts. rewrite app_nil_r. eauto 10.
      * rewrite set_sent by exact Hr. rewrite run_catch_block.
        cbn [status final_response final_app trace]. rewrite Hlog, Hr.
        autorewrite with counts. rewrite app_nil_r. eauto 10.
    + rewrite set_unsent by exact Hr.
      rewrite compressions_snoc_fetch, Hcodec, run_catch_block.
      cbn [status final_response final_app trace headersSent with_headers].
      rewrite Hlog, Hr. autorewrite with counts. cbn [emitted emit with_headers].
      eauto 10.
Qed.

Lemma exception_redirects_unless_sent_witness :
  let R := run Sample.unreachable_world []
             (handleImageProxyRequest Sample.platform (Sample.process None (Some "true")) 1
                Sample.photo_request false Sample.photo_app Sample.fresh_response) in
  status R = fulfilled
  ∧ emitted (final_response R) = [Redirected "http://img.example/a.png"]
  ∧ log (final_app R)
    = [LogError Sample.photo_locals (TransportError "Timeout of 60000ms exceeded")]
  ∧ fetches (trace R) = 1%nat.
Proof.
  cbv zeta.
  pose proof (exception_redirects_unless_sent Sample.platform
                (Sample.process None (Some "true")) Sample.unreachable_world 0
                Sample.photo_request false Sample.photo_app Sample.fresh_response []
                (or_introl (ex_intro _ (TransportError "Timeout of 60000ms exceeded")
                                     eq_refl))) as H.
  cbv zeta in H. destruct H as (Hst & Hem & _ & Hf & _).
  split; [exact Hst|]. split; [exact Hem|]. split; [reflexivity|exact Hf].
Defined.

(** ** Where the request context lives *)

(** C5, as the code has it: the extractor builds the context once per request
    that has a url and stores it in the application object of the worker,
    replacing what was there; without a url it leaves the stored context
    alone.  A run of the handler keeps url, grayscale and quality and flips
    the format once when the fallback is taken, never otherwise; the context
    stays in the application object when the run is over.  An attempt resumed
    from its fetch hands the codec the context stored in the application
    object at that moment. *)
Theorem context_in_application_object pf env w fuel rq app r seen :
  match parseRequestParameters pf rq app r with
  | Next app' r' =>
      r' = r ∧ ∃ filtered extra u, app' = set_locals (build_locals pf filtered extra u) app
  | Stop app' _ | Raised _ app' _ => app' = app
  end
  ∧ (let R := run w seen (handleImageProxyRequest pf env (S (S fuel)) rq false app r) in
     url (locals (final_app R)) = url (locals app)
     ∧ grayscale (locals (final_app R)) = grayscale (locals app)
     ∧ quality (locals (final_app R)) = quality (locals app)
     ∧ ((fetches (trace R) = S (fetches seen)
         ∧ format (locals (final_app R)) = format (locals app))
        ∨ (fetches (trace R) = S (S (fetches seen))
           ∧ format (locals (final_app R)) = flip (format (locals app)))))
  ∧ (∀ alt hs body app_now,
       headersSent r = false →
       resume_fetch (handleImageProxyRequest pf env (S fuel) rq alt app r)
                    (FetchOk hs body) app_now ≫= awaited_params
       = Some (locals app_now)).
Proof.
  split; [|split].
  - unfold parseRequestParameters.
    destruct (fold_left collect _ _) as [filtered extra].
    destruct (filtered !! "url") as [u|].
    + destruct (JS.truthy u); [eauto 10|].
      destruct (Res.send _ r); reflexivity.
    + destruct (Res.send _ r); reflexivity.
  - pose proof (run_first_summary pf env w fuel rq app r seen) as Hsum.
    cbv zeta in Hsum |- *. destruct Hsum as (_ & _ & _ & [[Hf Hloc]|[Hf Hloc]]).
    + rewrite Hloc. repeat split. left. split; [exact Hf|reflexivity].
    + rewrite Hloc. repeat split. right. split; [exact Hf|reflexivity].
  - intros alt hs body app_now Hr. cbn [handleImageProxyRequest resume_fetch].
    rewrite set_unsent by exact Hr. reflexivity.
Qed.

(** C5, two requests on one worker.  The first asks for JPEG at quality 40
    and suspends at its fetch; the extractor of the second, a grayscale WebP
    request, runs meanwhile; when the first is resumed its image goes to the
    codec with the context of the second.  And when a request has been
    answered, its context is still in the application object. *)
Lemma context_crosses_requests :
  let env := Sample.process None None in
  let first := get_root Sample.platform env 2 100 Sample.jpeg_request
                 Sample.idle_app Sample.fresh_response in
  let second := get_root Sample.platform env 2 200 Sample.gray_request
                  (task_app first) Sample.fresh_response in
  locals (task_app first) = Sample.jpeg_locals
  ∧ locals (task_app second) = Sample.gray_locals
  ∧ resume_fetch first (Sample.upstream_png 1000) (task_app second) ≫= awaited_params
    = Some Sample.gray_locals
  ∧ Sample.gray_locals ≠ Sample.jpeg_locals
  ∧ status (run Sample.winning_world [] first) = fulfilled
  ∧ locals (final_app (run Sample.winning_world [] first)) = Sample.jpeg_locals.
Proof. cbv zeta. repeat split. discriminate. Qed.

(** ** Admission *)

Module AdmissionFacts.

Import Admission.

Lemma queueSize_unset pf env :
  JS.truthy_prop (QUEUE_SIZE_PER_CLUSTER env) = false → admission_middleware pf env = None.
Proof.
  unfold admission_middleware, queueSize, JS.truthy_prop.
  destruct (QUEUE_SIZE_PER_CLUSTER env) as [s|]; [|reflexivity].
  intros ->. reflexivity.
Qed.

Lemma arrive_saturated opts id q :
  below_limit (active q) (activeLimit opts) = false →
  queuedLimit opts < 0 ∨ Z.of_nat (length (waiting q)) < queuedLimit opts →
  arrive opts id q = (mkQueue (active q) (waiting q ++ [id]), Queued).
Proof.
  intros Hfull Hroom. unfold arrive. rewrite Hfull.
  destruct (Z.ltb_spec (queuedLimit opts) 0); [reflexivity|].
  destruct (Z.ltb_spec (Z.of_nat (length (waiting q))) (queuedLimit opts)); [reflexivity|lia].
Qed.

Lemma arrive_all_saturated opts ids :
  ∀ q, below_limit (active q) (activeLimit opts) = false →
       queuedLimit opts < 0 →
       arrive_all opts ids q = mkQueue (active q) (waiting q ++ ids).
Proof.
  induction ids as [|id ids IH]; intros q Hfull Hunbounded.
  - destruct q. unfold arrive_all. simpl. rewrite app_nil_r. reflexivity.
  - unfold arrive_all in *. simpl.
    rewrite arrive_saturated by (try assumption; left; assumption). simpl.
    rewrite IH by assumption. simpl. rewrite <- app_assoc. reflexivity.
Qed.

Lemma drain_waiting ids : ∀ a, drain (length ids) (mkQueue a ids) = (mkQueue a [], ids).
Proof.
  induction ids as [|id ids IH]; intros a; [reflexivity|].
  simpl. rewrite IH. reflexivity.
Qed.

End AdmissionFacts.

Lemma accept_installed pf env s id q :
  QUEUE_SIZE_PER_CLUSTER env = Some s → s ≠ EmptyString →
  admission_middleware pf env
  = Some {| activeLimit := parseInt pf s (Some 10); queuedLimit := -1 |}
  ∧ Admission.accept pf env id q
    = Admission.arrive {| activeLimit := parseInt pf s (Some 10); queuedLimit := -1 |} id q.
Proof.
  intros Hs Hne. unfold Admission.accept, admission_middleware, queueSize. rewrite Hs.
  destruct s; [done|]. split; reflexivity.
Qed.

Lemma accept_all_installed pf env s ids :
  QUEUE_SIZE_PER_CLUSTER env = Some s → s ≠ EmptyString →
  ∀ q, accept_all pf env ids q
       = Admission.arrive_all
           {| activeLimit := parseInt pf s (Some 10); queuedLimit := -1 |} ids q.
Proof.
  intros Hs Hne. unfold accept_all, Admission.arrive_all.
  induction ids as [|id ids IH]; intros q; [reflexivity|].
  cbn [fold_left]. rewrite (proj2 (accept_installed pf env s id q Hs Hne)). apply IH.
Qed.

(** C9: with [QUEUE_SIZE_PER_CLUSTER] unset no queue is installed and every
    request proceeds at once.  With it set, the worker installs the queue
    with the parsed value as [activeLimit] and the unbounded sentinel as
    [queuedLimit]: a request arriving below [activeLimit] proceeds, one
    arriving when [activeLimit] requests are active waits at the tail,
    waiting requests are started oldest first as slots free, and the worker
    refuses none.  The queue itself, given a finite [queuedLimit], lets a
    request wait while the waiting count is below it and refuses the request
    at once when the count has reached it. *)
Theorem admission_control pf env opts id ids q :
  (JS.truthy_prop (QUEUE_SIZE_PER_CLUSTER env) = false →
   admission_middleware pf env = None ∧ Admission.accept pf env id q = (q, Admission.Proceed))
  ∧ (∀ s, QUEUE_SIZE_PER_CLUSTER env = Some s → s ≠ EmptyString →
       let limit := parseInt pf s (Some 10) in
       admission_middleware pf env = Some {| activeLimit := limit; queuedLimit := -1 |}
       ∧ (Admission.below_limit (Admission.active q) limit = true →
          Admission.accept pf env id q
          = (Admission.mkQueue (S (Admission.active q)) (Admission.waiting q),
             Admission.Proceed))
       ∧ (Admission.below_limit (Admission.active q) limit = false →
          Admission.accept pf env id q
          = (Admission.mkQueue (Admission.active q) (Admission.waiting q ++ [id]),
             Admission.Queued)
          ∧ Admission.drain (length (Admission.waiting q ++ ids)) (accept_all pf env ids q)
            = (Admission.mkQueue (Admission.active q) [], Admission.waiting q ++ ids))
       ∧ (Admission.accept pf env id q).2 ≠ Admission.Refused)
  ∧ (Admission.below_limit (Admission.active q) (activeLimit opts) = false →
     0 ≤ queuedLimit opts →
     (Z.of_nat (length (Admission.waiting q)) < queuedLimit opts →
      Admission.arrive opts id q
      = (Admission.mkQueue (Admission.active q) (Admission.waiting q ++ [id]),
         Admission.Queued))
     ∧ (queuedLimit opts ≤ Z.of_nat (length (Admission.waiting q)) →
        Admission.arrive opts id q = (q, Admission.Refused))).
Proof.
  split; [|split].
  - intros Hunset. split; [by apply AdmissionFacts.queueSize_unset|].
    unfold Admission.accept. by rewrite AdmissionFacts.queueSize_unset.
  - intros s Hs Hne limit. subst limit.
    destruct (accept_installed pf env s id q Hs Hne) as [Hinst Hacc].
    split; [exact Hinst|]. rewrite Hacc.
    split; [|split].
    + intros Hfree. unfold Admission.arrive. cbn [activeLimit]. by rewrite Hfree.
    + intros Hfull. split.
      * apply AdmissionFacts.arrive_saturated; [exact Hfull|left; cbn [queuedLimit]; lia].
      * rewrite (accept_all_installed pf env s ids Hs Hne).
        rewrite AdmissionFacts.arrive_all_saturated by (try exact Hfull; cbn [queuedLimit]; lia).
        apply AdmissionFacts.drain_waiting.
    + unfold Admission.arrive. cbn [activeLimit queuedLimit].
      destruct (Admission.below_limit _ _); cbn; discriminate.
  - intros Hfull Hfinite. split.
    + intros Hroom. apply AdmissionFacts.arrive_saturated; [exact Hfull|by right].
    + intros Hreached. unfold Admission.arrive. rewrite Hfull.
      destruct (Z.ltb_spec (queuedLimit opts) 0); [lia|].
      destruct (Z.ltb_spec (Z.of_nat (length (Admission.waiting q))) (queuedLimit opts));
        [lia|reflexivity].
Qed.

Lemma admission_control_witness :
  let q := Admission.mkQueue 2 [5%nat] in
  admission_middleware Sample.platform Sample2.queue_process
  = Some {| activeLimit := Some 2; queuedLimit := -1 |}
  ∧ Admission.accept Sample.platform Sample2.queue_process 6 q
    = (Admission.mkQueue 2 [5; 6]%nat, Admission.Queued)
  ∧ Admission.drain 3 (accept_all Sample.platform Sample2.queue_process [6; 7]%nat q)
    = (Admission.mkQueue 2 [], [5; 6; 7]%nat)
  ∧ Admission.arrive {| activeLimit := Some 1; queuedLimit := 1 |} 6 q
    = (q, Admission.Refused).
Proof.
  cbv zeta.
  destruct (admission_control Sample.platform Sample2.queue_process
              {| activeLimit := Some 1; queuedLimit := 1 |} 6%nat [6; 7]%nat
              (Admission.mkQueue 2 [5%nat])) as (_ & Hworker & Hqueue).
  destruct (Hworker "2" eq_refl ltac:(discriminate)) as (Hinst & _ & Hfull & _).
  destruct (Hfull eq_refl) as [Hwait Hfifo].
  destruct (Hqueue eq_refl ltac:(cbn; lia)) as [_ Hrefuse].
  split; [exact Hinst|]. split; [exact Hwait|]. split; [exact Hfifo|].
  apply Hrefuse. cbn. lia.
Defined.

Example third_request_waits :
  let opts := {| activeLimit := Some 2; queuedLimit := -1 |} in
  let q := Admission.arrive_all opts [1; 2; 3; 4]%nat (Admission.mkQueue 0 []) in
  q = Admission.mkQueue 2 [3; 4]%nat
  ∧ Admission.release q = (Admission.mkQueue 2 [4%nat], Some 3%nat).
Proof. cbv zeta. split; reflexivity. Qed.

Example worker_queue_of_two :
  admission_middleware Sample.platform
    {| USE_BEST_COMPRESSION_FORMAT := None; ENABLE_ALTERNATIVE_FORMAT := None;
       QUEUE_SIZE_PER_CLUSTER := Some "2"; EXTERNAL_REQUEST_TIMEOUT := None;
       EXTERNAL_REQUEST_RETRIES := None; EXTERNAL_REQUEST_REDIRECTS := None;
       gc_exposed := false |}
  = Some {| activeLimit := Some 2; queuedLimit := -1 |}.
Proof. reflexivity. Qed.

(** * Further properties of the code *)

(** ** The Parameter Extractor, entry by entry *)

Lemma append_cons c (s t : string) : String c s +:+ t = String c (s +:+ t).
Proof. reflexivity. Qed.

Lemma append_empty_l (t : string) : EmptyString +:+ t = t.
Proof. reflexivity. Qed.

Lemma append_empty_r (s : string) : s +:+ EmptyString = s.
Proof. induction s as [|c s IH]; [reflexivity|]. by rewrite append_cons, IH. Qed.

Lemma append_assoc (a b c : string) : (a +:+ b) +:+ c = a +:+ (b +:+ c).
Proof. induction a as [|x a IH]; [reflexivity|]. by rewrite !append_cons, IH. Qed.

Lemma truthy_nonempty s : JS.truthy s = true ↔ s ≠ EmptyString.
Proof. destruct s; simpl; split; intros; congruence. Qed.

(** What the loop over the entries leaves in its two accumulators. *)
Lemma collect_fold entries :
  ∀ (f : gmap string string) (x : string),
    let out := fold_left collect entries (f, x) in
    out.2 = x +:+ forwarded entries
    ∧ ∀ k, out.1 !! k
           = if bool_decide (k ∈ allowedQueryParameters)
             then match last_value k entries with
                  | Some v => Some v
                  | None => f !! k
                  end
             else f !! k.
Proof.
  induction entries as [|[k' v] entries IH]; intros f x; cbv zeta.
  - simpl. rewrite append_empty_r. split; [reflexivity|].
    intros k. by destruct (bool_decide _).
  - cbn [fold_left collect forwarded last_value fst snd].
    destruct (bool_decide (k' ∈ allowedQueryParameters)) eqn:Hallowed.
    + destruct (IH (<[k' := v]> f) x) as [Hx Hf]. split; [exact Hx|].
      intros k. rewrite Hf. destruct (bool_decide (k ∈ _)) eqn:Hk; [|].
      * destruct (last_value k entries); [reflexivity|].
        destruct (bool_decide (k' = k)) eqn:Hkk.
        -- apply bool_decide_eq_true in Hkk as ->. by rewrite lookup_insert_eq.
        -- apply bool_decide_eq_false in Hkk. by rewrite lookup_insert_ne.
      * apply bool_decide_eq_true in Hallowed. apply bool_decide_eq_false in Hk.
        rewrite lookup_insert_ne; [reflexivity|]. by intros ->.
    + destruct (IH f (x +:+ forwarded_entry (k', v))) as [Hx Hf].
      unfold forwarded_entry in *. cbn [fst snd] in *.
      split; [rewrite Hx; apply append_assoc|].
      intros k. rewrite Hf. destruct (bool_decide (k ∈ _)) eqn:Hk; [|reflexivity].
      destruct (last_value k entries); [reflexivity|].
      destruct (bool_decide (k' = k)) eqn:Hkk; [|reflexivity].
      apply bool_decide_eq_true in Hkk as ->. congruence.
Qed.

Lemma parseRequestParameters_by_entries pf rq app r :
  parseRequestParameters pf rq app r =
    match last_value "url" (query_entries pf rq) with
    | Some u =>
        if JS.truthy u
        then Next (set_locals (context_of pf (query_entries pf rq) u) app) r
        else match Res.send (Text "bandwidth-hero-proxy") r with
             | Normal r' => Stop app r'
             | Throw e => Raised e app r
             end
    | None =>
        match Res.send (Text "bandwidth-hero-proxy") r with
        | Normal r' => Stop app r'
        | Throw e => Raised e app r
        end
    end.
Proof.
  unfold parseRequestParameters.
  destruct (collect_fold (query_entries pf rq) ∅ EmptyString) as [Hx Hf].
  destruct (fold_left collect _ _) as [f x]. cbn [fst snd] in Hx, Hf.
  rewrite append_empty_l in Hx. subst x.
  assert (Hlook : ∀ k, k ∈ allowedQueryParameters →
                       f !! k = last_value k (query_entries pf rq)).
  { intros k Hk. rewrite Hf, bool_decide_eq_true_2 by exact Hk.
    destruct (last_value k _); [reflexivity|apply lookup_empty]. }
  rewrite (Hlook "url") by (unfold allowedQueryParameters; set_solver).
  destruct (last_value "url" _) as [u|]; [|reflexivity].
  destruct (JS.truthy u) eqn:Hu; [|reflexivity].
  unfold build_locals, context_of.
  rewrite (Hlook "jpg"), (Hlook "bw"), (Hlook "l")
    by (unfold allowedQueryParameters; set_solver).
  destruct (JS.truthy (forwarded _)) eqn:Hextra; [reflexivity|].
  destruct (forwarded (query_entries pf rq)); [|discriminate Hextra].
  by rewrite append_empty_r.
Qed.

(** X1: the stored target URL is the value of the last [url] entry, followed
    by every unrecognised entry in the order of the query, as [&key=value] or
    as [&key] when the value is empty, with the legacy prefix rewritten. *)
Theorem unrecognised_parameters_forwarded pf rq app r u :
  last_value "url" (query_entries pf rq) = Some u →
  u ≠ EmptyString →
  ∃ app',
    parseRequestParameters pf rq app r = Next app' r
    ∧ url (locals app') = LegacyPrefix.replace (u +:+ forwarded (query_entries pf rq)).
Proof.
  intros Hu Hne. rewrite parseRequestParameters_by_entries, Hu.
  rewrite (proj2 (truthy_nonempty u) Hne). eauto.
Qed.

Lemma unrecognised_parameters_forwarded_witness :
  ∃ app',
    parseRequestParameters Sample.platform Sample2.busy_request Sample.idle_app
      Sample.fresh_response = Next app' Sample.fresh_response
    ∧ url (locals app') = "http://img.example/c.png&x=1&y".
Proof.
  apply (unrecognised_parameters_forwarded Sample.platform Sample2.busy_request
           Sample.idle_app Sample.fresh_response "http://img.example/c.png");
    [reflexivity|discriminate].
Defined.

(** X2: the extractor reads each flag from the last entry of its name:
    the format is jpeg exactly when the last [jpg] value is the string [1],
    webp otherwise; grayscale is on exactly when the last [bw] value is [1];
    the quality is [parseInt] of the last [l] value, or of [80] when that is
    missing or empty.  Nothing else of the application object changes. *)
Theorem flags_read_from_last_entries pf rq app r u :
  last_value "url" (query_entries pf rq) = Some u →
  u ≠ EmptyString →
  let entries := query_entries pf rq in
  ∃ app',
    parseRequestParameters pf rq app r = Next app' r
    ∧ (format (locals app') = jpeg ↔ last_value "jpg" entries = Some "1")
    ∧ (format (locals app') = webp ↔ last_value "jpg" entries ≠ Some "1")
    ∧ (grayscale (locals app') = true ↔ last_value "bw" entries = Some "1")
    ∧ quality (locals app')
      = parseInt pf (match last_value "l" entries with
                     | Some (String c s) => String c s
                     | _ => "80"
                     end) None
    ∧ lastRequestTimestamp app' = lastRequestTimestamp app
    ∧ log app' = log app
    ∧ gcCalls app' = gcCalls app.
Proof.
  intros Hu Hne entries. rewrite parseRequestParameters_by_entries, Hu.
  rewrite (proj2 (truthy_nonempty u) Hne). eexists. split; [reflexivity|].
  fold entries. cbn [locals set_locals context_of format grayscale quality
                     lastRequestTimestamp log gcCalls].
  unfold JS.strict_eq.
  repeat split; try (case_bool_decide; naive_solver).
  destruct (last_value "l" entries) as [[|c s]|]; reflexivity.
Qed.

Lemma flags_read_from_last_entries_witness :
  ∃ app',
    parseRequestParameters Sample.platform Sample2.busy_request Sample.idle_app
      Sample.fresh_response = Next app' Sample.fresh_response
    ∧ locals app' = mkLocals "http://img.example/c.png&x=1&y" jpeg false (Some 80).
Proof.
  destruct (flags_read_from_last_entries Sample.platform Sample2.busy_request
              Sample.idle_app Sample.fresh_response "http://img.example/c.png"
              eq_refl ltac:(discriminate)) as (app' & Hnext & _).
  exists app'. split; [exact Hnext|].
  vm_compute in Hnext. injection Hnext as <-. reflexivity.
Defined.

(** X3: the extractor passes the request on exactly when the last [url]
    entry has a non-empty value.  A query whose last [url] entry is empty is
    answered like one without any: with the identification text, the
    application object untouched. *)
Theorem next_iff_url_not_empty pf rq app r :
  let entries := query_entries pf rq in
  ((∃ app' r', parseRequestParameters pf rq app r = Next app' r')
   ↔ ∃ u, last_value "url" entries = Some u ∧ u ≠ EmptyString)
  ∧ (headersSent r = false →
     last_value "url" entries = None ∨ last_value "url" entries = Some EmptyString →
     parseRequestParameters pf rq app r = Stop app (identified r)).
Proof.
  intros entries. subst entries. rewrite parseRequestParameters_by_entries.
  destruct (last_value "url" _) as [u|].
  - destruct (JS.truthy u) eqn:Hu.
    + split.
      * split; [intros _; exists u; split; [reflexivity|by apply truthy_nonempty]|eauto].
      * intros _ [H|H]; [discriminate H|]. injection H as ->. discriminate Hu.
    + assert (u = EmptyString) as -> by (destruct u; [reflexivity|discriminate Hu]).
      split.
      * split.
        -- intros (a & r' & H). destruct (Res.send _ r); discriminate H.
        -- intros (u & H & Hne). by injection H as <-.
      * intros Hr _. by rewrite send_unsent.
  - split.
    + split.
      * intros (a & r' & H). destruct (Res.send _ r); discriminate H.
      * intros (u & H & _). discriminate H.
    + intros Hr _. by rewrite send_unsent.
Qed.

Example empty_url_is_identified :
  parseRequestParameters Sample.platform Sample2.empty_url_request Sample.idle_app
    Sample.fresh_response
  = Stop Sample.idle_app (identified Sample.fresh_response).
Proof. reflexivity. Qed.

(** ** The query string handed to [URLSearchParams] *)

Lemma length_append (s t : string) :
  String.length (s +:+ t) = (String.length s + String.length t)%nat.
Proof. induction s as [|c s IH]; [reflexivity|]. rewrite append_cons. simpl. by rewrite IH. Qed.

Lemma substring_all (t : string) : substring 0 (String.length t) t = t.
Proof. induction t as [|c t IH]; [reflexivity|]. simpl. by rewrite IH. Qed.

Lemma substring_skip (p t : string) m :
  substring (String.length p) m (p +:+ t) = substring 0 m t.
Proof.
  induction p as [|c p IH]; [reflexivity|].
  rewrite append_cons. simpl. exact IH.
Qed.

Lemma indexOf_from_first c p q :
  ∀ i, 0 ≤ i → JS.indexOf_from c p i = -1 →
       JS.indexOf_from c (p +:+ String c q) i = i + Z.of_nat (String.length p).
Proof.
  induction p as [|d p IH]; intros i Hi Habsent.
  - rewrite append_empty_l. simpl. rewrite bool_decide_eq_true_2 by reflexivity. lia.
  - rewrite append_cons. simpl in *. case_bool_decide; [lia|].
    rewrite IH by (try lia; exact Habsent). lia.
Qed.

(** X4: the extractor parses the part of the request URL from its first
    question mark on, the mark included.  A URL without a question mark is
    not parsed as having an empty query: its last character is parsed
    instead. *)
Theorem query_from_first_question_mark :
  (∀ p q, JS.indexOf "?" p = -1 → query_of (p +:+ String "?" q) = String "?" q)
  ∧ (∀ p c, JS.indexOf "?" (p +:+ String c EmptyString) = -1 →
            query_of (p +:+ String c EmptyString) = String c EmptyString)
  ∧ query_of EmptyString = EmptyString
  ∧ (∀ pf rq, query_entries pf rq = URLSearchParams pf (query_of (request_url rq))).
Proof.
  split; [|split; [|split; reflexivity]].
  - intros p q Hp. unfold query_of, JS.indexOf, JS.slice.
    rewrite indexOf_from_first by (try lia; exact Hp).
    rewrite length_append. cbn [String.length].
    replace (0 + Z.of_nat (String.length p) <? 0) with false by (symmetry; apply Z.ltb_ge; lia).
    rewrite Z.min_l by lia.
    replace (Z.to_nat (0 + Z.of_nat (String.length p))) with (String.length p) by lia.
    replace (Z.to_nat _) with (String.length (String "?" q)) by (cbn [String.length]; lia).
    rewrite substring_skip. apply substring_all.
  - intros p c Hp. unfold query_of, JS.slice. rewrite Hp.
    rewrite length_append. cbn [String.length].
    change (-1 <? 0) with true. cbv iota.
    rewrite Z.max_l by lia.
    replace (Z.to_nat (Z.of_nat (String.length p + 1) + -1)) with (String.length p) by lia.
    replace (Z.to_nat _) with (String.length (String c EmptyString))
      by (cbn [String.length]; lia).
    rewrite substring_skip. apply substring_all.
Qed.

Example query_of_samples :
  query_of "/?url=a?b&c" = "?url=a?b&c" ∧ query_of "/" = "/" ∧ query_of "/healthz" = "z".
Proof. repeat split. Qed.

(** ** The legacy-prefix rewrite *)

Module LegacyPrefixFacts.

Import LegacyPrefix.

Lemma literal_any_case p :
  ∀ s r, JS.toLowerCase s = JS.toLowerCase p → literal p (s +:+ r) = Some r.
Proof.
  induction p as [|a p IH]; intros [|b s] r Heq; try discriminate Heq.
  - reflexivity.
  - simpl in Heq. injection Heq as Hc Hs. rewrite append_cons. simpl.
    rewrite bool_decide_eq_true_2 by congruence. by apply IH.
Qed.

Lemma literal_length p :
  ∀ s r, literal p s = Some r →
         String.length s = (String.length p + String.length r)%nat.
Proof.
  induction p as [|a p IH]; intros s r Hm.
  - destruct s; injection Hm as <-; reflexivity.
  - destruct s as [|b s]; [discriminate Hm|]. simpl in Hm.
    case_bool_decide; [|discriminate Hm]. simpl. by rewrite (IH _ _ Hm).
Qed.

Lemma digit_length s r : digit s = Some r → String.length s = S (String.length r).
Proof.
  destruct s as [|c s]; [discriminate|]. simpl.
  destruct (JS.is_digit c); [|discriminate]. by intros [= <-].
Qed.

Lemma scheme_length s : (String.length (scheme s) ≤ String.length s)%nat.
Proof.
  unfold scheme. destruct (literal "https://" s) as [r|] eqn:H1.
  - apply literal_length in H1. lia.
  - destruct (literal "http://" s) as [r|] eqn:H2; [|lia].
    apply literal_length in H2. lia.
Qed.

Lemma match_here_length s rest :
  match_here s = Some rest → (String.length rest + 19 ≤ String.length s)%nat.
Proof.
  unfold match_here. intros Hm.
  destruct (literal "http://1.1." s) as [s1|] eqn:H1; [|discriminate Hm].
  cbn [mbind option_bind] in Hm.
  destruct (digit s1) as [s2|] eqn:H2; [|discriminate Hm]. cbn [mbind option_bind] in Hm.
  destruct (literal "." s2) as [s3|] eqn:H3; [|discriminate Hm].
  cbn [mbind option_bind] in Hm.
  destruct (digit s3) as [s4|] eqn:H4; [|discriminate Hm]. cbn [mbind option_bind] in Hm.
  destruct (literal "/bmi/" s4) as [s5|] eqn:H5; [|discriminate Hm].
  cbn [mbind option_bind] in Hm. injection Hm as <-.
  apply literal_length in H1, H3, H5. apply digit_length in H2, H4.
  pose proof (scheme_length s5). cbn [String.length] in *. lia.
Qed.

Lemma scheme_https s r : JS.toLowerCase s = "https://" → scheme (s +:+ r) = r.
Proof.
  intros Hs. unfold scheme.
  by rewrite (literal_any_case "https://" s r) by exact Hs.
Qed.

Lemma scheme_http s r : JS.toLowerCase s = "http://" → scheme (s +:+ r) = r.
Proof.
  intros Hs. unfold scheme.
  assert (Hno : literal "https://" (s +:+ r) = None).
  { destruct s as [|c1 [|c2 [|c3 [|c4 [|c5 s]]]]]; try discriminate Hs.
    simpl in Hs. injection Hs as H1 H2 H3 H4 H5 Hs.
    rewrite !append_cons. simpl.
    rewrite !bool_decide_eq_true_2 by (symmetry; assumption).
    rewrite bool_decide_eq_false_2; [reflexivity|]. rewrite H5. discriminate. }
  rewrite Hno. by rewrite (literal_any_case "http://" s r) by exact Hs.
Qed.

Lemma literal_dot s : literal "." (String "." s) = Some s.
Proof. reflexivity. Qed.

Lemma match_here_wrapped host d1 d2 path inner :
  JS.toLowerCase host = "http://1.1." →
  JS.is_digit d1 = true → JS.is_digit d2 = true →
  JS.toLowerCase path = "/bmi/" →
  match_here (legacy_wrapped host d1 d2 path inner) = Some (scheme inner).
Proof.
  intros Hhost Hd1 Hd2 Hpath. unfold match_here, legacy_wrapped.
  rewrite (literal_any_case "http://1.1." host) by exact Hhost.
  cbn [mbind option_bind digit]. rewrite Hd1. cbn [mbind option_bind].
  rewrite literal_dot.
  cbn [mbind option_bind digit]. rewrite Hd2. cbn [mbind option_bind].
  by rewrite (literal_any_case "/bmi/" path) by exact Hpath.
Qed.

End LegacyPrefixFacts.

(** X5: a URL that starts with [http://1.1.d.d/bmi/], in any letter case and
    for any two digits, loses that prefix together with one inner [http://]
    or [https://] (in any letter case), and gets a plain [http://] in its
    place. *)
Theorem legacy_prefix_unwrapped host d1 d2 path :
  JS.toLowerCase host = "http://1.1." →
  JS.is_digit d1 = true → JS.is_digit d2 = true →
  JS.toLowerCase path = "/bmi/" →
  (∀ s r, JS.toLowerCase s = "https://" ∨ JS.toLowerCase s = "http://" →
          LegacyPrefix.replace (legacy_wrapped host d1 d2 path (s +:+ r)) = "http://" +:+ r)
  ∧ (∀ r, LegacyPrefix.literal "https://" r = None →
          LegacyPrefix.literal "http://" r = None →
          LegacyPrefix.replace (legacy_wrapped host d1 d2 path r) = "http://" +:+ r).
Proof.
  intros Hhost Hd1 Hd2 Hpath. split.
  - intros s r Hs. destruct (legacy_wrapped host d1 d2 path (s +:+ r)) eqn:Hw;
      cbn [LegacyPrefix.replace]; rewrite <- Hw;
      rewrite (LegacyPrefixFacts.match_here_wrapped host d1 d2 path (s +:+ r))
        by assumption;
      (destruct Hs as [Hs|Hs];
       [by rewrite LegacyPrefixFacts.scheme_https
       |by rewrite LegacyPrefixFacts.scheme_http]).
  - intros r H1 H2. destruct (legacy_wrapped host d1 d2 path r) eqn:Hw;
      cbn [LegacyPrefix.replace]; rewrite <- Hw;
      rewrite (LegacyPrefixFacts.match_here_wrapped host d1 d2 path r) by assumption;
      unfold LegacyPrefix.scheme; by rewrite H1, H2.
Qed.

Lemma legacy_prefix_unwrapped_witness :
  LegacyPrefix.replace (legacy_wrapped "HTTP://1.1." "2" "3" "/BMI/"
                          ("HttpS://" +:+ "img.example/a.png"))
  = "http://" +:+ "img.example/a.png".
Proof.
  apply (proj1 (legacy_prefix_unwrapped "HTTP://1.1." "2" "3" "/BMI/"
                  eq_refl eq_refl eq_refl eq_refl)).
  left. reflexivity.
Defined.

(** X6: the rewrite leaves a URL as it is or shortens it by at least twelve
    characters; it never lengthens one. *)
Theorem rewrite_never_lengthens s :
  LegacyPrefix.replace s = s
  ∨ (String.length (LegacyPrefix.replace s) + 12 ≤ String.length s)%nat.
Proof.
  induction s as [|c s IH].
  - left. reflexivity.
  - cbn [LegacyPrefix.replace].
    destruct (LegacyPrefix.match_here (String c s)) as [rest|] eqn:Hm.
    + right. apply LegacyPrefixFacts.match_here_length in Hm.
      rewrite length_append. cbn [String.length] in *. lia.
    + destruct IH as [IH|IH]; [left; by rewrite IH|right; cbn [String.length]; lia].
Qed.

Example only_the_leftmost_match_is_rewritten :
  LegacyPrefix.replace "http://1.1.1.1/bmi/http://1.1.2.2/bmi/img.example/a.png"
  = "http://1.1.2.2/bmi/img.example/a.png".
Proof. reflexivity. Qed.

(** ** What a run leaves behind *)

Section Accounting.

Context (pf : Platform) (env : Process) (w : World).

Ltac leaf Hr :=
  rewrite ?run_catch_block; cbn [run status trace final_response final_app];
  unfold completion, gc_hint;
  split;
  [ destruct (gc_exposed env); reflexivity
  | split;
    [ eexists; split; [rewrite <- ?app_assoc; reflexivity | repeat constructor]
    | destruct (gc_exposed env);
      cbn [final_response final_app closeListeners gcCalls log locals logger
           headersSent emitted with_headers emit Res.on_close served];
      rewrite ?Hr;
      cbn [closeListeners emit with_headers entered set_format set_locals
           gcCalls log locals];
      first [ left; repeat split; rewrite ?app_nil_r; first [reflexivity | lia]
            | right; split; [|split]; [reflexivity | lia | eexists; reflexivity] ] ] ].

Lemma alternative_run_accounts fuel rq app r seen :
  let R := run w seen (handleImageProxyRequest pf env (S fuel) rq true app r) in
  lastRequestTimestamp (final_app R) = lastRequestTimestamp app
  ∧ (∃ extra, trace R = seen ++ extra
              ∧ fetches_only (upstream_request pf env rq (url (locals app))) extra)
  ∧ completion env app r [] R.
Proof.
  cbv zeta. rewrite run_attempt. cbv zeta.
  destruct (headersSent r) eqn:Hr;
    (destruct (superagent_get _ _ _) as [hs body|e]; [|leaf Hr]).
  - destruct hs as [|[n v] hs].
    + cbn [Res.set]. destruct (codec_call _ _ _ _ _) as [result|e]; [|leaf Hr].
      unfold decide_response, Res.removeHeader. rewrite Hr. leaf Hr.
    + rewrite set_sent by exact Hr. leaf Hr.
  - rewrite set_unsent by exact Hr.
    destruct (codec_call _ _ _ _ _) as [result|e]; [|leaf Hr].
    rewrite decide_response_unsent by exact Hr. cbv zeta.
    destruct (_ >? 0); [leaf Hr|]. cbn [negb andb]. leaf Hr.
Qed.

Ltac leaf_first Hr :=
  rewrite ?run_catch_block; cbn [run status trace final_response final_app];
  unfold completion, gc_hint;
  split;
  [ destruct (gc_exposed env); reflexivity
  | split;
    [ eexists; split; [rewrite <- ?app_assoc; reflexivity | repeat constructor]
    | exists [];
      split; [left; split; [reflexivity | autorewrite with counts; reflexivity]|];
      destruct (gc_exposed env);
      cbn [final_response final_app closeListeners gcCalls log locals logger
           headersSent emitted with_headers emit Res.on_close served];
      rewrite ?Hr;
      cbn [closeListeners emit with_headers entered set_format set_locals
           gcCalls log locals];
      first [ left; repeat split; rewrite ?app_nil_r; first [reflexivity | lia]
            | right; split; [|split]; [reflexivity | lia | eexists; reflexivity] ] ] ].

Lemma first_run_accounts fuel rq app r seen :
  let R := run w seen (handleImageProxyRequest pf env (S (S fuel)) rq false app r) in
  lastRequestTimestamp (final_app R) = lastRequestTimestamp app
  ∧ (∃ extra, trace R = seen ++ extra
              ∧ fetches_only (upstream_request pf env rq (url (locals app))) extra)
  ∧ ∃ noted,
      ((noted = [] ∧ fetches (trace R) = S (fetches seen))
       ∨ (∃ original compressed,
            noted = [LogNoReduction (locals app) original compressed]
            ∧ fetches (trace R) = S (S (fetches seen))))
      ∧ completion env app r noted R.
Proof.
  cbv zeta. rewrite run_attempt. cbv zeta. rewrite !entered_false.
  destruct (headersSent r) eqn:Hr;
    (destruct (superagent_get _ _ _) as [hs body|e]; [|leaf_first Hr]).
  - destruct hs as [|[n v] hs].
    + cbn [Res.set]. destruct (codec_call _ _ _ _ _) as [result|e]; [|leaf_first Hr].
      unfold decide_response, Res.removeHeader. rewrite Hr. leaf_first Hr.
    + rewrite set_sent by exact Hr. leaf_first Hr.
  - rewrite set_unsent by exact Hr.
    destruct (codec_call _ _ _ _ _) as [result|e]; [|leaf_first Hr].
    rewrite decide_response_unsent by exact Hr. cbv zeta.
    destruct (_ >? 0); [leaf_first Hr|].
    destruct (negb false && alternative_enabled env); [|leaf_first Hr].
    match goal with
    | |- context [run w ?s (handleImageProxyRequest pf env (S fuel) rq true ?a ?r1)] =>
        pose proof (alternative_run_accounts fuel rq a r1 s) as Hacc;
        pose proof (run_alternative_summary pf env w fuel rq a r1 s) as Hsum
    end.
    cbv zeta in Hacc, Hsum.
    destruct Hacc as (Hts & (extra & Htrace & Hfetch) & Hdone).
    destruct Hsum as (_ & Hf & _).
    autorewrite with counts in Hf.
    split; [exact Hts|]. split.
    { eexists. split; [rewrite Htrace, <- !app_assoc; reflexivity|].
      unfold fetches_only. simpl.
      constructor; [reflexivity|]. constructor; [exact I|]. exact Hfetch. }
    eexists. split; [right; eexists _, _; split; [reflexivity|exact Hf]|].
    unfold completion in *.
    cbn [closeListeners gcCalls log logger with_headers] in Hdone.
    rewrite app_nil_r in Hdone.
    destruct Hdone as [(Hc & Hg & Hl)|(Hc & Hg & reason & Hl)].
    + left. repeat split; eassumption.
    + right. split; [exact Hc|]. split; [exact Hg|].
      exists reason. rewrite Hl, <- app_assoc. reflexivity.
Qed.

End Accounting.

(** X7: a request ends in one of two ways.  Through the end of the [try]
    block: one [close] listener is registered on the response, nothing is
    logged but the "no reduction" note of a first attempt that was retried,
    and the collector is not called.  Or through the [catch] block: no
    [close] listener is registered, the error is the last log entry, and the
    collector is called once if it is exposed.  The "no reduction" note is
    logged exactly in the runs that fetch twice. *)
Theorem completion_listener_or_error_log pf env w fuel rq app r seen :
  let R := run w seen (handleImageProxyRequest pf env (S (S fuel)) rq false app r) in
  ∃ noted,
    ((noted = [] ∧ fetches (trace R) = S (fetches seen))
     ∨ (∃ original compressed,
          noted = [LogNoReduction (locals app) original compressed]
          ∧ fetches (trace R) = S (S (fetches seen))))
    ∧ ((closeListeners (final_response R) = S (closeListeners r)
        ∧ gcCalls (final_app R) = gcCalls app
        ∧ log (final_app R) = log app ++ noted)
       ∨ (closeListeners (final_response R) = closeListeners r
          ∧ gcCalls (final_app R) = (gcCalls app + if gc_exposed env then 1 else 0)%nat
          ∧ ∃ reason,
              log (final_app R)
              = log app ++ noted ++ [LogError (locals (final_app R)) reason])).
Proof. exact (proj2 (proj2 (first_run_accounts pf env w fuel rq app r seen))). Qed.

(** X8: the route records the time of a request exactly when the extractor
    passes it on, whatever the handler then does with it; a request answered
    with the identification text leaves the idle timer where it was. *)
Theorem timestamp_only_for_proxied_requests pf env w fuel now rq app r seen :
  let R := run w seen (get_root pf env (S (S fuel)) now rq app r) in
  lastRequestTimestamp (final_app R)
  = match last_value "url" (query_entries pf rq) with
    | Some (String _ _) => now
    | _ => lastRequestTimestamp app
    end.
Proof.
  cbv zeta. unfold get_root. rewrite parseRequestParameters_by_entries.
  destruct (last_value "url" _) as [[|c u]|]; cbn [JS.truthy].
  - destruct (Res.send _ r); reflexivity.
  - rewrite (proj1 (first_run_accounts pf env w fuel rq _ r seen)). reflexivity.
  - destruct (Res.send _ r); reflexivity.
Qed.

(** X9: every upstream fetch of a run, the first and the one of the
    alternative attempt, is the same request: for the URL stored when the
    handler was entered, with [accept-encoding], [accept], [cache-control],
    [pragma] and [connection] set to the handler's fixed values whatever the
    client sent for them, and with the other headers as [omitEquals] left
    them. *)
Theorem one_upstream_request_per_run pf env w fuel rq app r seen :
  let R := run w seen (handleImageProxyRequest pf env (S (S fuel)) rq false app r) in
  let frq := upstream_request pf env rq (url (locals app)) in
  (∃ extra, trace R = seen ++ extra ∧ fetches_only frq extra)
  ∧ fetch_url frq = url (locals app)
  ∧ fetch_headers frq !! "accept-encoding" = Some "*"
  ∧ fetch_headers frq !! "accept" = Some "*/*"
  ∧ fetch_headers frq !! "cache-control" = Some "no-cache"
  ∧ fetch_headers frq !! "pragma" = Some "no-cache"
  ∧ fetch_headers frq !! "connection" = Some "close"
  ∧ (∀ k : string,
       k ∉ ["accept-encoding"; "accept"; "cache-control"; "pragma"; "connection"] →
       fetch_headers frq !! k
       = (list_to_map (omitEquals pf (request_headers rq) ["host"]) : gmap string string)
           !! k).
Proof.
  cbv zeta. split; [exact (proj1 (proj2 (first_run_accounts pf env w fuel rq app r seen)))|].
  unfold upstream_request, filteredRequestHeaders. cbn [fetch_url fetch_headers].
  repeat split; try by simplify_map_eq.
  intros k Hk. rewrite !lookup_insert_ne; [reflexivity|..];
    intros <-; apply Hk; set_solver.
Qed.

(** ** What an attempt fixes at entry and what it reads late *)

(** X10: the URL an attempt fetches, and the URL it redirects to when the
    fetch fails, when the codec fails, or when nothing was saved and no
    retry follows, is the one stored when the attempt was entered, whatever
    is stored in the application object by the time the attempt is
    resumed. *)
Theorem entry_url_is_kept pf env fuel rq alt app r app1 app2 hs body result e :
  headersSent r = false →
  let t := handleImageProxyRequest pf env (S fuel) rq alt app r in
  let u := url (locals app) in
  awaited_request t = Some (upstream_request pf env rq u)
  ∧ resume_fetch t (FetchThrow e) app1 ≫= settled_response
    = Some (emit (Redirected u) r)
  ∧ resume_both t (FetchOk hs body) app1 (CompressThrow e) app2 ≫= settled_response
    = Some (emit (Redirected u) (with_headers (store_fields hs (headers r)) r))
  ∧ (Z.of_nat (length body) ≤ image_info_size result →
     alt = true ∨ alternative_enabled env = false →
     resume_both t (FetchOk hs body) app1 (CompressOk result) app2 ≫= settled_response
     = Some (Res.on_close (emit (Redirected u) (prepared hs r)))).
Proof.
  intros Hr t u. subst t u. unfold resume_both.
  cbn [handleImageProxyRequest awaited_request resume_fetch].
  split; [reflexivity|]. split.
  { rewrite catch_block_settles, Hr. reflexivity. }
  rewrite set_unsent by exact Hr. cbn [mbind option_bind resume_compress]. split.
  { rewrite catch_block_settles. cbn [headersSent with_headers]. rewrite Hr. reflexivity. }
  intros Htie Hlast. rewrite decide_response_unsent by exact Hr. cbv zeta.
  replace (_ >? 0) with false
    by (symmetry; destruct (Z.gtb_spec (Z.of_nat (length body) - image_info_size result) 0);
        [lia|reflexivity]).
  replace (negb alt && alternative_enabled env) with false
    by (destruct Hlast as [->| ->]; [reflexivity|by destruct alt]).
  reflexivity.
Qed.

Lemma entry_url_is_kept_witness :
  let env := Sample.process None None in
  let first := get_root Sample.platform env 2 100 Sample.jpeg_request
                 Sample.idle_app Sample.fresh_response in
  let second := get_root Sample.platform env 2 200 Sample.gray_request
                  (task_app first) Sample.fresh_response in
  locals (task_app second) = Sample.gray_locals
  ∧ resume_fetch first (FetchThrow (TransportError "socket hang up")) (task_app second)
      ≫= settled_response
    = Some (emit (Redirected "http://img.example/a.png") Sample.fresh_response).
Proof.
  cbv zeta. split; [reflexivity|].
  exact (proj1 (proj2 (entry_url_is_kept Sample.platform (Sample.process None None) 1
                         Sample.jpeg_request false
                         (updateLastRequestTimestamp 100
                            (set_locals Sample.jpeg_locals Sample.idle_app))
                         Sample.fresh_response
                         (task_app (get_root Sample.platform (Sample.process None None) 2 200
                                      Sample.gray_request
                                      (updateLastRequestTimestamp 100
                                         (set_locals Sample.jpeg_locals Sample.idle_app))
                                      Sample.fresh_response))
                         Sample.idle_app [] [] (Sample.image "webp" 0)
                         (TransportError "socket hang up") eq_refl))).
Defined.

(** X11: the self-call of the fallback starts from the application object as
    it is when the codec call of the first attempt returns: the alternative
    attempt flips the format stored then and fetches the URL stored then, not
    the URL of the first attempt. *)
Theorem retry_reads_the_stored_context pf env fuel rq app r app1 app2 hs body result :
  headersSent r = false →
  alternative_enabled env = true →
  Z.of_nat (length body) ≤ image_info_size result →
  let t := handleImageProxyRequest pf env (S (S fuel)) rq false app r in
  let retry := resume_both t (FetchOk hs body) app1 (CompressOk result) app2 in
  retry ≫= awaited_request = Some (upstream_request pf env rq (url (locals app2)))
  ∧ locals <$> (task_app <$> retry)
    = Some (mkLocals (url (locals app2)) (flip (format (locals app2)))
                     (grayscale (locals app2)) (quality (locals app2))).
Proof.
  intros Hr Hflag Htie t retry. subst retry t. unfold resume_both.
  cbn [handleImageProxyRequest resume_fetch].
  rewrite set_unsent by exact Hr. cbn [mbind option_bind resume_compress].
  rewrite decide_response_unsent by exact Hr. cbv zeta.
  replace (_ >? 0) with false
    by (symmetry; destruct (Z.gtb_spec (Z.of_nat (length body) - image_info_size result) 0);
        [lia|reflexivity]).
  rewrite Hflag. cbn [negb andb]. split; reflexivity.
Qed.

Lemma retry_reads_the_stored_context_witness :
  let env := Sample.process None (Some "true") in
  let first := get_root Sample.platform env 2 100 Sample.jpeg_request
                 Sample.idle_app Sample.fresh_response in
  let second := get_root Sample.platform env 2 200 Sample.gray_request
                  (task_app first) Sample.fresh_response in
  let retry := resume_both first (Sample.upstream_png 1000) (task_app second)
                 (CompressOk (Sample.image "webp" 1000)) (task_app second) in
  fetch_url <$> (retry ≫= awaited_request) = Some "http://img.example/b.png"
  ∧ locals <$> (task_app <$> retry)
    = Some (mkLocals "http://img.example/b.png" jpeg true (Some 80)).
Proof.
  cbv zeta.
  pose proof (retry_reads_the_stored_context Sample.platform
                (Sample.process None (Some "true")) 0 Sample.jpeg_request
                (updateLastRequestTimestamp 100
                   (set_locals Sample.jpeg_locals Sample.idle_app))
                Sample.fresh_response
                (updateLastRequestTimestamp 200
                   (set_locals Sample.gray_locals
                      (updateLastRequestTimestamp 100
                         (set_locals Sample.jpeg_locals Sample.idle_app))))
                (updateLastRequestTimestamp 200
                   (set_locals Sample.gray_locals
                      (updateLastRequestTimestamp 100
                         (set_locals Sample.jpeg_locals Sample.idle_app))))
                [("content-type", "image/png"); ("transfer-encoding", "chunked")]
                (Sample.bytes 1000) (Sample.image "webp" 1000)
                eq_refl eq_refl) as H.
  cbv zeta in H.
  assert (Htie : Z.of_nat (length (Sample.bytes 1000))
                 ≤ image_info_size (Sample.image "webp" 1000))
    by (vm_compute; discriminate).
  destruct (H Htie) as [Hrq Hloc].
  split; [|exact Hloc].
  change (fetch_url <$> Some (upstream_request Sample.platform
                                (Sample.process None (Some "true")) Sample.jpeg_request
                                "http://img.example/b.png")
          = Some "http://img.example/b.png").
  reflexivity.
Defined.

(** ** Upstream headers on the win path *)

Lemma store_fields_lookup fields :
  ∀ (h : gmap string string) (k : string),
    store_fields fields h !! k
    = match last_value k (lowered fields) with
      | Some v => Some v
      | None => h !! k
      end.
Proof.
  induction fields as [|[n v] fields IH]; intros h k; [reflexivity|].
  unfold store_fields in *. cbn [fold_left lowered map last_value fst snd].
  rewrite IH. fold (lowered fields).
  destruct (last_value k (lowered fields)); [reflexivity|].
  case_bool_decide as Hk; [subst k; by rewrite lookup_insert_eq|by rewrite lookup_insert_ne].
Qed.

(** X12: on the win path every header of the upstream response other than
    [transfer-encoding] and the five the handler sets itself goes out with
    the image, under its lower-cased name and with the value of its last
    occurrence; a header the response object carried before stays when the
    upstream has none of that name. *)
Theorem win_path_forwards_upstream_headers
    pf env w fuel rq alt app r seen hs body result :
  headersSent r = false →
  superagent_get w (fetches seen) (upstream_request pf env rq (url (locals app)))
    = FetchOk hs body →
  codec_call w (compressions seen) (codec_of env) body (locals (entered alt app))
    = CompressOk result →
  image_info_size result < Z.of_nat (length body) →
  let R := run w seen (handleImageProxyRequest pf env (S fuel) rq alt app r) in
  ∃ h,
    emitted (final_response R) = emitted r ++ [Sent h (Bytes (image_data result))]
    ∧ ∀ k : string,
        k ∉ rewritten_names →
        h !! k = match last_value k (lowered hs) with
                 | Some v => Some v
                 | None => headers r !! k
                 end.
Proof.
  intros Hr Hfetch Hcodec Hwin R. subst R.
  rewrite run_attempt. cbv zeta. rewrite Hfetch.
  rewrite set_unsent by exact Hr.
  rewrite compressions_snoc_fetch, Hcodec.
  rewrite decide_response_unsent by exact Hr. cbv zeta.
  replace (_ >? 0) with true by (symmetry; apply Z.gtb_lt; lia).
  eexists. split; [reflexivity|].
  intros k Hk. unfold win_fields, store_fields at 1. cbn [fold_left fst snd].
  change (JS.toLowerCase "content-encoding") with "content-encoding".
  change (JS.toLowerCase "content-type") with "content-type".
  change (JS.toLowerCase "content-length") with "content-length".
  change (JS.toLowerCase "x-original-size") with "x-original-size".
  change (JS.toLowerCase "x-bytes-saved") with "x-bytes-saved".
  cbn [headers with_headers].
  unfold rewritten_names in Hk.
  rewrite !lookup_insert_ne by (intros <-; apply Hk; set_solver).
  rewrite lookup_delete_ne by (intros <-; apply Hk; set_solver).
  apply store_fields_lookup.
Qed.

Lemma win_path_forwards_upstream_headers_witness :
  let world :=
    Sample.world
      (fun _ => FetchOk [("ETag", "abc"); ("Content-Length", "1000"); ("etag", "xyz")]
                        (Sample.bytes 1000))
      (fun _ => CompressOk (Sample.image "webp" 600)) in
  let R := run world []
             (handleImageProxyRequest Sample.platform (Sample.process None None) 1
                Sample.photo_request false Sample.photo_app Sample.fresh_response) in
  ∃ h,
    emitted (final_response R) = [Sent h (Bytes (Sample.bytes 600))]
    ∧ h !! "etag" = Some "xyz"
    ∧ h !! "ETag" = None
    ∧ h !! "content-length" = Some "600".
Proof.
  cbv zeta.
  destruct (win_path_forwards_upstream_headers Sample.platform (Sample.process None None)
              (Sample.world
                 (fun _ => FetchOk [("ETag", "abc"); ("Content-Length", "1000");
                                    ("etag", "xyz")] (Sample.bytes 1000))
                 (fun _ => CompressOk (Sample.image "webp" 600)))
              0 Sample.photo_request false Sample.photo_app Sample.fresh_response []
              [("ETag", "abc"); ("Content-Length", "1000"); ("etag", "xyz")]
              (Sample.bytes 1000) (Sample.image "webp" 600)
              eq_refl eq_refl eq_refl ltac:(vm_compute; reflexivity))
    as (h & Hsent & Hother).
  exists h. split; [exact Hsent|].
  split; [|split].
  - rewrite Hother by (apply (bool_decide_unpack _); vm_compute; exact I). reflexivity.
  - rewrite Hother by (apply (bool_decide_unpack _); vm_compute; exact I). reflexivity.
  - vm_compute in Hsent. injection Hsent as <-. reflexivity.
Defined.

(** ** The idle timer over a quiet period *)

Lemma idle_tick_by_range env now app :
  idle_tick env now app
  = if in_idle_range app now then gc_hint (gc_exposed env) app else app.
Proof.
  unfold idle_tick, in_idle_range.
  change (10 * 1000) with 10000. change (60 * 1000) with 60000.
  destruct (Z.ltb_spec (now - lastRequestTimestamp app) 10000),
    (Z.gtb_spec (now - lastRequestTimestamp app) 60000),
    (Z.leb_spec 10000 (now - lastRequestTimestamp app)),
    (Z.leb_spec (now - lastRequestTimestamp app) 60000); simpl; try reflexivity; lia.
Qed.

Lemma idle_ticks_summary env times app :
  let after := idle_ticks env times app in
  gcCalls after = (gcCalls app + if gc_exposed env then idle_hits app times else 0)%nat
  ∧ locals after = locals app
  ∧ lastRequestTimestamp after = lastRequestTimestamp app
  ∧ log after = log app.
Proof.
  cbv zeta. revert app. induction times as [|now times IH]; intros app.
  - simpl. unfold idle_hits. simpl. destruct (gc_exposed env); repeat split; lia.
  - unfold idle_ticks in *. cbn [fold_left]. destruct (IH (idle_tick env now app))
      as (Hg & Hl & Ht & Hlog).
    rewrite Hg, Hl, Ht, Hlog. rewrite idle_tick_by_range.
    unfold idle_hits, in_idle_range in *. cbn [List.filter].
    assert (Hsame : ∀ a, lastRequestTimestamp (gc_hint (gc_exposed env) a)
                         = lastRequestTimestamp a)
      by (intros a; unfold gc_hint; destruct (gc_exposed env); reflexivity).
    destruct ((10000 <=? now - lastRequestTimestamp app)
              && (now - lastRequestTimestamp app <=? 60000)).
    + rewrite Hsame. unfold gc_hint.
      destruct (gc_exposed env); simpl; repeat split; lia.
    + repeat split.
Qed.


(** X13: a series of timer ticks with no request in between asks for one
    collection per tick whose elapsed time lies in the range from 10 000 ms
    to 60 000 ms, provided the collector is exposed, and changes nothing
    else: not the stored context, not the time of the last request, not the
    log. *)
Theorem idle_ticks_count env times app :
  let after := idle_ticks env times app in
  gcCalls after = (gcCalls app + if gc_exposed env then idle_hits app times else 0)%nat
  ∧ locals after = locals app
  ∧ lastRequestTimestamp after = lastRequestTimestamp app
  ∧ log after = log app.
Proof. apply idle_ticks_summary. Qed.

Module IdleFacts.

Lemma filter_length_le {A} (p q : A → bool) (l : list A) :
  (∀ x, p x = true → q x = true) →
  (length (List.filter p l) ≤ length (List.filter q l))%nat.
Proof.
  intros Himp. induction l as [|x l IH]; [reflexivity|]. simpl.
  destruct (p x) eqn:Hp.
  - rewrite (Himp x Hp). simpl. lia.
  - destruct (q x); simpl; lia.
Qed.

Lemma spaced_count_upto hi times :
  ∀ b, spaced 5000 times →
       (∀ t, head times = Some t → b ≤ t) →
       Z.of_nat (length (List.filter (fun x => x <=? hi) times)) * 5000
       ≤ Z.max 0 (hi - b + 5000).
Proof.
  induction times as [|t rest IH]; intros b Hsp Hhead; [simpl; lia|].
  destruct Hsp as [Hgap Hsp]. specialize (Hhead t eq_refl).
  assert (Hrest : ∀ t', head rest = Some t' → t + 5000 ≤ t').
  { destruct rest as [|t' rest]; intros x Hx; [discriminate Hx|].
    injection Hx as <-. exact Hgap. }
  specialize (IH (t + 5000) Hsp Hrest). cbn [List.filter].
  destruct (Z.leb_spec t hi); cbn [length]; lia.
Qed.

Lemma spaced_idle_hits app times :
  spaced 5000 times → (idle_hits app times ≤ 11)%nat.
Proof.
  unfold idle_hits. induction times as [|t rest IH]; intros Hsp; [simpl; lia|].
  destruct (Z.ltb_spec (t - lastRequestTimestamp app) 10000) as [Hearly|Hlate].
  - cbn [List.filter]. unfold in_idle_range at 1.
    replace (10000 <=? t - lastRequestTimestamp app) with false
      by (symmetry; apply Z.leb_gt; lia).
    cbn [andb]. apply IH, Hsp.
  - pose proof (filter_length_le (in_idle_range app)
                  (fun x => x <=? lastRequestTimestamp app + 60000) (t :: rest)) as Hle.
    pose proof (spaced_count_upto (lastRequestTimestamp app + 60000) (t :: rest)
                  (lastRequestTimestamp app + 10000) Hsp) as Hup.
    assert (Himp : ∀ x, in_idle_range app x = true
                        → (x <=? lastRequestTimestamp app + 60000) = true).
    { intros x Hx. unfold in_idle_range in Hx. apply andb_prop in Hx as [_ Hx].
      apply Z.leb_le in Hx. apply Z.leb_le. lia. }
    specialize (Hle Himp).
    assert (Hhead : ∀ x, head (t :: rest) = Some x → lastRequestTimestamp app + 10000 ≤ x)
      by (intros x [= <-]; lia).
    specialize (Hup Hhead). lia.
Qed.

End IdleFacts.

(** X14: when the ticks of a quiet period are at least 5000 ms apart, the
    timer callback asks for at most eleven collections over that period.
    Collections the handler asks for itself, in its [catch] block and in its
    [close] listener, are not ticks and are not counted here. *)
Theorem at_most_eleven_hints env times app :
  spaced 5000 times →
  (gcCalls (idle_ticks env times app) ≤ gcCalls app + 11)%nat.
Proof.
  intros Hsp.
  pose proof (IdleFacts.spaced_idle_hits app times Hsp) as Hhits.
  rewrite (proj1 (idle_ticks_summary env times app)).
  destruct (gc_exposed env); lia.
Qed.

Lemma at_most_eleven_hints_witness :
  spaced 5000 (every_5000 5000 20)
  ∧ (gcCalls (idle_ticks (Sample.process None None) (every_5000 5000 20) Sample.idle_app)
     ≤ gcCalls Sample.idle_app + 11)%nat
  ∧ gcCalls (idle_ticks (Sample.process None None) (every_5000 5000 20) Sample.idle_app)
    = 11%nat.
Proof.
  assert (Hsp : spaced 5000 (every_5000 5000 20)) by (simpl; repeat split; lia).
  split; [exact Hsp|]. split; [|reflexivity].
  exact (at_most_eleven_hints (Sample.process None None) (every_5000 5000 20)
           Sample.idle_app Hsp).
Defined.

(** ** The file-size formatter *)

Example convertFileSize_samples :
  FileSize.convertFileSize (QArith_base.inject_Z 1000) 2 = "1000.00 B"
  ∧ FileSize.convertFileSize (QArith_base.inject_Z 1536) 2 = "1.50 KB"
  ∧ FileSize.convertFileSize (QArith_base.inject_Z 1152) 2 = "1.13 KB"
  ∧ FileSize.convertFileSize (QArith_base.inject_Z 1048575) 2 = "1024.00 KB"
  ∧ FileSize.convertFileSize (QArith_base.inject_Z 0) 2 = "0.00 B".
Proof. repeat split; vm_compute; reflexivity. Qed.

(** X15: for a byte count [n] the formatter picks the unit by powers of
    1024: B below 1024, KB below 1024^2, MB below 1024^3, GB below 1024^4 and
    TB for everything from 1024^4 on, however large; the number it prints is
    [n] divided by that power, exactly, before rounding. *)
Theorem file_size_unit_by_powers_of_1024 (n : Z) decimalPlaces :
  0 ≤ n < 2 ^ 53 →
  ∃ scaled index unit,
    FileSize.loop (length FileSize.units) (QArith_base.inject_Z n) 0 = (scaled, index)
    ∧ FileSize.units !! index = Some unit
    ∧ FileSize.convertFileSize (QArith_base.inject_Z n) decimalPlaces
      = FileSize.toFixed decimalPlaces scaled +:+ " " +:+ unit
    ∧ QArith_base.Qeq
        (QArith_base.Qmult scaled (QArith_base.inject_Z (1024 ^ Z.of_nat index)))
        (QArith_base.inject_Z n)
    ∧ (unit = "B" ↔ n < 1024)
    ∧ (unit = "KB" ↔ 1024 ≤ n < 1024 ^ 2)
    ∧ (unit = "MB" ↔ 1024 ^ 2 ≤ n < 1024 ^ 3)
    ∧ (unit = "GB" ↔ 1024 ^ 3 ≤ n < 1024 ^ 4)
    ∧ (unit = "TB" ↔ 1024 ^ 4 ≤ n).
Proof.
  intros [Hn _]. unfold FileSize.convertFileSize.
  cbn [FileSize.loop FileSize.units length Nat.sub Nat.ltb Nat.leb andb].
  unfold QArith_base.Qle_bool, QArith_base.Qdiv, QArith_base.Qmult, QArith_base.Qinv,
    QArith_base.inject_Z, QArith_base.Qeq.
  cbn [QArith_base.Qnum QArith_base.Qden Pos.mul Z.mul].
  rewrite !Z.mul_1_r.
  change (1024 ^ 2) with 1048576. change (1024 ^ 3) with 1073741824.
  change (1024 ^ 4) with 1099511627776.
  repeat match goal with
         | |- context [Z.leb ?a ?b] => destruct (Z.leb_spec a b)
         end;
    cbn [andb];
    eexists _, _, _;
    (split; [reflexivity|]); (split; [reflexivity|]); (split; [reflexivity|]);
    cbn [QArith_base.Qnum QArith_base.Qden Z.of_nat Z.pow Z.pow_pos Pos.iter Pos.of_succ_nat
         Pos.succ Pos.mul Z.mul];
    (split; [lia|]);
    repeat split; intros; try discriminate; lia.
Qed.

Lemma file_size_unit_by_powers_of_1024_witness :
  ∃ scaled,
    FileSize.convertFileSize (QArith_base.inject_Z 1048575) 2
    = FileSize.toFixed 2 scaled +:+ " " +:+ "KB"
    ∧ QArith_base.Qeq
        (QArith_base.Qmult scaled (QArith_base.inject_Z 1024))
        (QArith_base.inject_Z 1048575).
Proof.
  destruct (file_size_unit_by_powers_of_1024 1048575 2 ltac:(lia))
    as (scaled & index & unit & Hloop & Hunit & Hstr & Heq & _).
  vm_compute in Hloop. injection Hloop as <- <-.
  vm_compute in Hunit. injection Hunit as <-.
  eexists. split; [exact Hstr|exact Heq].
Defined.

(** ** The worker pool *)

Module PrimaryFacts.

Import Primary.

Lemma fork_sound c : sound c → sound (fork c).
Proof.
  intros [Hnd Hlt]. split; cbn [fork workers forked].
  - apply NoDup_cons. split; [|exact Hnd]. intros Hin. specialize (Hlt _ Hin). lia.
  - intros x [->|Hin]%elem_of_cons; [lia|]. specialize (Hlt _ Hin). lia.
Qed.

Lemma start_sound size : sound (start size) ∧ length (workers (start size)) = turns size.
Proof.
  unfold start. induction (turns size) as [|n [IHs IHl]].
  - split; [split; [constructor|intros x Hx; by apply elem_of_nil in Hx]|reflexivity].
  - rewrite Nat.iter_succ. split; [by apply fork_sound|].
    cbn [fork workers length]. by rewrite IHl.
Qed.

Lemma filter_out_length (d : nat) (l : list nat) :
  NoDup l → d ∈ l → S (length (filter (fun x => x ≠ d) l)) = length l.
Proof.
  induction l as [|x l IH]; intros Hnd Hin; [by apply elem_of_nil in Hin|].
  apply NoDup_cons in Hnd as [Hx Hnd]. rewrite filter_cons.
  destruct (decide (x ≠ d)) as [Hne|Heq].
  - apply elem_of_cons in Hin as [->|Hin]; [done|]. cbn [length]. by rewrite IH.
  - apply dec_stable in Heq. subst x. cbn [length]. f_equal.
    clear IH Hin Hnd. induction l as [|y l IH]; [reflexivity|].
    rewrite filter_cons. apply not_elem_of_cons in Hx as [Hy Hx].
    destruct (decide (y ≠ d)) as [|Hc];
      [cbn [length]; by rewrite IH | exfalso; apply Hc; congruence].
Qed.

Lemma worker_dies_sound d c :
  sound c → d ∈ workers c →
  sound (worker_dies d c)
  ∧ length (workers (worker_dies d c)) = length (workers c)
  ∧ forked (worker_dies d c) = S (forked c)
  ∧ warnings (worker_dies d c) = warnings c ++ [d].
Proof.
  intros [Hnd Hlt] Hin. unfold worker_dies, on_exit.
  split; [|split; [|split; reflexivity]].
  - apply fork_sound. split; cbn [workers forked].
    + by apply NoDup_filter.
    + intros x [_ Hx]%list_elem_of_filter. by apply Hlt.
  - cbn [fork workers length]. by apply filter_out_length.
Qed.

Lemma after_deaths_sound deaths :
  ∀ c, sound c → all_live deaths c →
       sound (after_deaths deaths c)
       ∧ length (workers (after_deaths deaths c)) = length (workers c)
       ∧ forked (after_deaths deaths c) = (forked c + length deaths)%nat
       ∧ warnings (after_deaths deaths c) = warnings c ++ deaths.
Proof.
  induction deaths as [|d deaths IH]; intros c Hs Hlive.
  - cbn. rewrite app_nil_r. repeat split; first [apply Hs | lia].
  - destruct Hlive as [Hd Hlive].
    destruct (worker_dies_sound d c Hs Hd) as (Hs' & Hlen & Hf & Hw).
    destruct (IH _ Hs' Hlive) as (Hs'' & Hlen' & Hf' & Hw').
    unfold after_deaths in *. cbn [fold_left].
    rewrite Hlen', Hf', Hw', Hlen, Hf, Hw, <- app_assoc. cbn [length].
    repeat split; first [apply Hs'' | lia].
Qed.

End PrimaryFacts.

(** X16: the primary forks as many workers as [clusterSize] says, none when
    that is NaN or not positive, and forks one new worker for each worker
    that dies, whatever the reason: after any series of deaths the pool has
    its start-up size again, every worker in it is a distinct process, and
    one warning was written per death, in order. *)
Theorem pool_size_is_restored size deaths :
  Primary.all_live deaths (Primary.start size) →
  let c := Primary.after_deaths deaths (Primary.start size) in
  length (Primary.workers c) = Primary.turns size
  ∧ NoDup (Primary.workers c)
  ∧ Primary.forked c = (Primary.turns size + length deaths)%nat
  ∧ Primary.warnings c = deaths.
Proof.
  intros Hlive. cbv zeta.
  destruct (PrimaryFacts.start_sound size) as [Hs Hlen].
  destruct (PrimaryFacts.after_deaths_sound deaths _ Hs Hlive) as ([Hnd _] & Hl & Hf & Hw).
  rewrite Hl, Hf, Hw, Hlen. split; [reflexivity|]. split; [exact Hnd|].
  assert (Hzero : ∀ n, Primary.forked (Nat.iter n Primary.fork (Primary.mkCluster [] 0 [])) = n
                       ∧ Primary.warnings (Nat.iter n Primary.fork (Primary.mkCluster [] 0 []))
                         = []).
  { clear. induction n as [|n [IHf IHw]]; [split; reflexivity|].
    rewrite Nat.iter_succ. cbn [Primary.fork Primary.forked Primary.warnings].
    by rewrite IHf, IHw. }
  unfold Primary.start. destruct (Hzero (Primary.turns size)) as [-> ->].
  split; reflexivity.
Qed.

Lemma pool_size_is_restored_witness :
  let c := Primary.after_deaths [1; 3; 0]%nat (Primary.start (Some 3)) in
  Primary.all_live [1; 3; 0]%nat (Primary.start (Some 3))
  ∧ length (Primary.workers c) = 3%nat
  ∧ Primary.workers c = [5; 4; 2]%nat
  ∧ Primary.warnings c = [1; 3; 0]%nat.
Proof.
  cbv zeta.
  assert (Hlive : Primary.all_live [1; 3; 0]%nat (Primary.start (Some 3))).
  { cbn. repeat split; apply (bool_decide_unpack _); vm_compute; exact I. }
  destruct (pool_size_is_restored (Some 3) [1; 3; 0]%nat Hlive) as (Hl & _ & _ & Hw).
  split; [exact Hlive|]. split; [exact Hl|]. split; [reflexivity|exact Hw].
Defined.

Example cluster_size_samples :
  Primary.clusterSize Sample.platform None None 16 = Some 4
  ∧ Primary.clusterSize Sample.platform (Some "2") None 16 = Some 2
  ∧ Primary.clusterSize Sample.platform (Some "2") (Some "32") 16 = Some 32
  ∧ Primary.clusterSize Sample.platform (Some "many") None 16 = None
  ∧ Primary.turns (Primary.clusterSize Sample.platform (Some "many") None 16) = 0%nat.
Proof. repeat split. Qed.

(** ** What a client can receive *)

Section Answers.

Context (pf : Platform) (env : Process) (w : World).





End Answers.


